(** * count_if performance study: the fork-join counting engine and its driver

    A shallow embedding of [src/main.cpp]: the hand-written parallel
    counting routine [custom_parallel_count_if], the derivation of the
    candidate worker counts from the hardware concurrency, the sweep that
    selects the best worker count, and the places where counts are stored.

    Target data model (MSVC, x64): [int] and [unsigned int] are 32 bits wide,
    [long long], [size_t] and [ptrdiff_t] are 64 bits wide, [double] is IEEE
    binary64.  Integers are values of [Z] with the wrap-around of their type
    written out; doubles are Rocq's primitive binary64 floats. *)

From Stdlib Require Import ZArith List Bool Lia.
From Stdlib Require Import PrimFloat Uint63.
From Stdlib Require Import Permutation.
Import ListNotations.
Local Open Scope Z_scope.

(** ** Machine integers *)

Inductive ctype : Type :=
| Int            (* int *)
| UnsignedInt    (* unsigned int *)
| LongLong       (* long long *)
| SizeT          (* size_t *)
| PtrdiffT.      (* std::ptrdiff_t, the difference type std::count_if returns *)

Definition bits (t : ctype) : Z :=
  match t with
  | Int | UnsignedInt => 32
  | LongLong | SizeT | PtrdiffT => 64
  end.

Definition is_signed (t : ctype) : bool :=
  match t with
  | Int | LongLong | PtrdiffT => true
  | UnsignedInt | SizeT => false
  end.

Definition modulus (t : ctype) : Z := 2 ^ bits t.

(** Conversion of an integer value to type [t]: reduction modulo [2^bits],
    read back in two's complement for the signed types. *)
Definition convert (t : ctype) (v : Z) : Z :=
  if is_signed t
  then (v + modulus t / 2) mod modulus t - modulus t / 2
  else v mod modulus t.

Definition min_value (t : ctype) : Z :=
  if is_signed t then - (modulus t / 2) else 0.

Definition max_value (t : ctype) : Z :=
  if is_signed t then modulus t / 2 - 1 else modulus t - 1.

Definition in_range (t : ctype) (v : Z) : Prop :=
  min_value t <= v <= max_value t.

Definition in_rangeb (t : ctype) (v : Z) : bool :=
  (min_value t <=? v) && (v <=? max_value t).

Definition INT_MAX : Z := Eval cbv in max_value Int.
Definition UINT_MAX : Z := Eval cbv in max_value UnsignedInt.
Definition LLONG_MAX : Z := Eval cbv in max_value LongLong.
Definition SIZE_MAX : Z := Eval cbv in max_value SizeT.
Definition PTRDIFF_MAX : Z := Eval cbv in max_value PtrdiffT.

(** [std::vector<int>::max_size()]: no vector of [int] holds more elements
    than [min(PTRDIFF_MAX, SIZE_MAX / sizeof(int))]. *)
Definition VECTOR_INT_MAX_SIZE : Z := Eval cbv in Z.min PTRDIFF_MAX (SIZE_MAX / 4).

(** Arithmetic on [size_t] wraps modulo [2^64]. *)
Definition to_size_t (v : Z) : Z := convert SizeT v.
Definition size_add (a b : Z) : Z := convert SizeT (a + b).
Definition size_sub (a b : Z) : Z := convert SizeT (a - b).
Definition size_mul (a b : Z) : Z := convert SizeT (a * b).

(** Arithmetic on [unsigned int] wraps modulo [2^32]. *)
Definition uint_add (a b : Z) : Z := convert UnsignedInt (a + b).
Definition uint_mul (a b : Z) : Z := convert UnsignedInt (a * b).

(** ** The predicate *)

(** [bool is_even(int n) { return n % 2 == 0; }]; [%] truncates towards
    zero, which is [Z.rem]. *)
Definition is_even (n : Z) : bool := Z.rem n 2 =? 0.

(** [std::count_if(first, last, pred)]: the number of elements of the range
    for which the predicate holds.  This is the sequential reference count. *)
Definition std_count_if (pred : Z -> bool) (data : list Z) : Z :=
  Z.of_nat (length (filter pred data)).

Definition sequential_count (data : list Z) : Z := std_count_if is_even data.

(** ** The machine: the dataset, faults and a log of events *)

(** What the C++ abstract machine leaves undefined, or turns into an
    exception that nothing catches. *)
Inductive fault : Type :=
| DivisionByZero    (* integer division with a zero divisor *)
| LengthError       (* std::length_error thrown by vector::reserve *)
| OutOfRange        (* data[j] with j >= data.size() *)
| SignedOverflow.   (* overflow of a long long count *)

Inductive event : Type :=
| EvDivide (dividend divisor : Z)     (* an integer division was performed *)
| EvAsync (start_idx end_idx : Z).    (* std::async launched a task on [start_idx, end_idx) *)

(** [vec] is the vector the engine receives by reference; [trace] is the log
    of divisions and task launches, oldest first. *)
Record machine : Type := Machine { vec : list Z; trace : list event }.

Definition M (A : Type) : Type := machine -> (fault + A) * machine.

Definition ret {A : Type} (a : A) : M A := fun m => (inr a, m).

Definition raise {A : Type} (f : fault) : M A := fun m => (inl f, m).

Definition bind {A B : Type} (c : M A) (k : A -> M B) : M B :=
  fun m =>
    match c m with
    | (inr a, m') => k a m'
    | (inl f, m') => (inl f, m')
    end.

Declare Scope cpp_scope.
Delimit Scope cpp_scope with cpp.
Notation "x <- c ;; k" := (bind c (fun x => k))
  (at level 100, c at next level, right associativity) : cpp_scope.
Notation "c ;;; k" := (bind c (fun _ => k))
  (at level 100, right associativity) : cpp_scope.
Local Open Scope cpp_scope.

Definition log (e : event) : M unit :=
  fun m => (inr tt, {| vec := vec m; trace := trace m ++ [e] |}).

(** Integer division: undefined for a zero divisor. *)
Definition divide (a b : Z) : M Z :=
  if b =? 0 then raise DivisionByZero
  else (log (EvDivide a b) ;;; ret (a / b)).

(** [data.empty()], [data.size()] and [data[j]] on the referenced vector. *)
Definition data_empty : M bool :=
  fun m => (inr (match vec m with [] => true | _ :: _ => false end), m).

Definition data_size : M Z :=
  fun m => (inr (Z.of_nat (length (vec m))), m).

Definition data_at (j : Z) : M Z :=
  fun m =>
    if (0 <=? j) && (j <? Z.of_nat (length (vec m)))
    then (inr (nth (Z.to_nat j) (vec m) 0), m)
    else (inl OutOfRange, m).

(** [futures.reserve(n)] throws [std::length_error] when [n] exceeds the
    vector's [max_size()], which is at most [PTRDIFF_MAX] for every element
    type; every negative [int] converts to a [size_t] above that bound and
    every other [int] lies far below any [max_size()]. *)
Definition reserve (n : Z) : M unit :=
  if PTRDIFF_MAX <? n then raise LengthError else ret tt.

(** [long long] addition; overflow is undefined. *)
Definition ll_add (a b : Z) : M Z :=
  if in_rangeb LongLong (a + b) then ret (a + b) else raise SignedOverflow.

(** ** The parallel counting engine *)

(** The body of the task's loop,
    [for (size_t j = start_idx; j < end_idx; ++j) if (is_even(data[j])) local_count++;]
    with [n] the number of iterations left. *)
Fixpoint count_loop (n : nat) (j local_count : Z) : M Z :=
  match n with
  | O => ret local_count
  | S n' =>
      x <- data_at j ;;
      local_count' <- (if is_even x then ll_add local_count 1 else ret local_count) ;;
      count_loop n' (size_add j 1) local_count'
  end.

(** The lambda handed to [std::async]: it reads the shared vector, writes
    only its own [local_count] and returns it. *)
Definition task (start_idx end_idx : Z) : M Z :=
  count_loop (Z.to_nat (end_idx - start_idx)) start_idx 0.

(** [std::async(std::launch::async, ...)]: the launch is logged; the value
    the future will hold is the task's result, which depends on the vector
    alone since the task shares no writable state with any other task. *)
Definition async (start_idx end_idx : Z) : M Z :=
  log (EvAsync start_idx end_idx) ;;; task start_idx end_idx.

(** [for (int i = 0; i < num_threads; ++i) { ... }] with [n] iterations
    left; [futures] holds the values of the futures pushed so far. *)
Fixpoint spawn_loop (n : nat) (i chunk_size size : Z) (futures : list Z)
  : M (list Z) :=
  match n with
  | O => ret futures
  | S n' =>
      let start_idx := size_mul (to_size_t i) chunk_size in
      let end_idx := Z.min (size_add start_idx chunk_size) size in
      if end_idx <=? start_idx
      then spawn_loop n' (i + 1) chunk_size size futures
      else (f <- async start_idx end_idx ;;
            spawn_loop n' (i + 1) chunk_size size (futures ++ [f]))
  end.

(** [for (auto& f : futures) total_count += f.get();] *)
Fixpoint join (futures : list Z) (total_count : Z) : M Z :=
  match futures with
  | [] => ret total_count
  | f :: rest => total_count' <- ll_add total_count f ;; join rest total_count'
  end.

(** [long long custom_parallel_count_if(const std::vector<int>& data, int num_threads)];
    [data] is the vector of the machine. *)
Definition custom_parallel_count_if (num_threads : Z) : M Z :=
  empty <- data_empty ;;
  if (empty : bool) then ret 0
  else
    let total_count := 0 in
    size <- data_size ;;
    chunk_size <- divide (size_sub (size_add size (to_size_t num_threads)) 1)
                         (to_size_t num_threads) ;;
    reserve (to_size_t num_threads) ;;;
    futures <- spawn_loop (Z.to_nat num_threads) 0 chunk_size size [] ;;
    join futures total_count.

(** A call on dataset [D] from a machine with an empty log. *)
Definition run_engine (D : list Z) (num_threads : Z) : (fault + Z) * machine :=
  custom_parallel_count_if num_threads {| vec := D; trace := [] |}.

(** The tasks launched, as chunks [(start_idx, end_idx)], in launch order. *)
Fixpoint spawned (tr : list event) : list (Z * Z) :=
  match tr with
  | [] => []
  | EvAsync s e :: tr' => (s, e) :: spawned tr'
  | EvDivide _ _ :: tr' => spawned tr'
  end.

(** The divisors of the divisions performed, in order. *)
Fixpoint divisors (tr : list event) : list Z :=
  match tr with
  | [] => []
  | EvDivide _ b :: tr' => b :: divisors tr'
  | EvAsync _ _ :: tr' => divisors tr'
  end.

(** ** The driver: candidate worker counts *)

(** [std::sort] on a [vector<int>]: the ascending rearrangement. *)
Fixpoint insert_sorted (x : Z) (l : list Z) : list Z :=
  match l with
  | [] => [x]
  | y :: l' => if x <=? y then x :: l else y :: insert_sorted x l'
  end.

Fixpoint sort (l : list Z) : list Z :=
  match l with
  | [] => []
  | x :: l' => insert_sorted x (sort l')
  end.

(** [v.erase(std::unique(v.begin(), v.end()), v.end())]: of every run of
    equal neighbours one element stays. *)
Fixpoint unique (l : list Z) : list Z :=
  match l with
  | [] => []
  | x :: l' =>
      match l' with
      | [] => [x]
      | y :: _ => if x =? y then unique l' else x :: unique l'
      end
  end.

(** [k_values.push_back(e)] for an [unsigned int] expression [e]: the value
    is converted to the vector's element type [int]. *)
Definition push_back (k_values : list Z) (e : Z) : list Z :=
  k_values ++ [convert Int e].

(** Lines 134-148 of [main]; [hardware_threads] is an [unsigned int]. *)
Definition derive_k_values (hardware_threads : Z) : M (list Z) :=
  let k_values := push_back [] 1 in
  k_values <- (if 1 <? hardware_threads
               then (half <- divide hardware_threads 2 ;; ret (push_back k_values half))
               else ret k_values) ;;
  let k_values := push_back k_values hardware_threads in
  extra <- (if 1 <? hardware_threads then divide hardware_threads 2 else ret 1) ;;
  let k_values := push_back k_values (uint_add hardware_threads extra) in
  let k_values := push_back k_values (uint_mul hardware_threads 2) in
  let k_values := if 2 <? hardware_threads
                  then push_back k_values (uint_mul hardware_threads 3)
                  else k_values in
  let k_values := push_back k_values 32 in
  ret (unique (sort k_values)).

(** The candidate set in the words of the specification:
    {1, H/2 (if H>1), H, H + H/2 (if H>1, else H+1), 2H, 3H (if H>2), 32},
    over the integers. *)
Definition spec_candidates (H : Z) : list Z :=
  [1] ++ (if 1 <? H then [H / 2] else [])
      ++ [H; H + (if 1 <? H then H / 2 else 1); 2 * H]
      ++ (if 2 <? H then [3 * H] else [])
      ++ [32].

Fixpoint strictly_ascending (l : list Z) : Prop :=
  match l with
  | [] => True
  | x :: l' =>
      match l' with
      | [] => True
      | y :: _ => x < y /\ strictly_ascending l'
      end
  end.

(** ** The driver: the sweep and the selection of the best worker count *)

(** [std::numeric_limits<double>::max()] *)
Definition DBL_MAX : float := 0x1.fffffffffffffp+1023%float.

(** Lines 164-167:
    [if (duration < best_time) { best_time = duration; best_k = k; }] *)
Definition update_best (best : float * Z) (k : Z) (duration : float) : float * Z :=
  if PrimFloat.ltb duration (fst best) then (duration, k) else best.

(** Lines 153-154: [best_time = max(), best_k = -1]. *)
Definition initial_best : float * Z := (DBL_MAX, -1).

(** The selection over a sequence of Phase C records [(K, elapsed time)]. *)
Definition select_best (records : list (Z * float)) : float * Z :=
  fold_left (fun best r => update_best best (fst r) (snd r)) records initial_best.

Record sweep : Type := Sweep { best : float * Z; last_count : Z }.

(** Lines 153-155. *)
Definition initial_sweep : sweep := {| best := initial_best; last_count := -1 |}.

(** Lines 157-168.  [clock k] is the elapsed time the timing service reports
    for the run with worker count [k]. *)
Fixpoint sweep_loop (clock : Z -> float) (k_values : list Z) (s : sweep) : M sweep :=
  match k_values with
  | [] => ret s
  | k :: rest =>
      if k =? 0 then sweep_loop clock rest s
      else
        (count <- custom_parallel_count_if k ;;
         let duration := clock k in
         sweep_loop clock rest
           {| best := update_best (best s) k duration; last_count := count |})
  end.

(** The records of a sweep: one per candidate that is run. *)
Definition sweep_records (clock : Z -> float) (k_values : list Z) : list (Z * float) :=
  map (fun k => (k, clock k)) (filter (fun k => negb (k =? 0)) k_values).

(** [static_cast<double>(x)] and the conversion of an [unsigned int] to
    [double]; both are exact, 32-bit values fit the 53-bit significand. *)
Definition to_double (x : Z) : float :=
  if x <? 0 then PrimFloat.opp (PrimFloat.of_uint63 (Uint63.of_Z (- x)))
  else PrimFloat.of_uint63 (Uint63.of_Z x).

(** Line 172: [static_cast<double>(best_k) / hardware_threads]. *)
Definition ratio (best_k hardware_threads : Z) : float :=
  PrimFloat.div (to_double best_k) (to_double hardware_threads).

(** The ratio in the words of the specification: a zero hardware
    concurrency is treated as 1. *)
Definition guarded_ratio (best_k H : Z) : float :=
  ratio best_k (if H =? 0 then 1 else H).

(** Phase C of [main], lines 134-172: the final sweep state and the ratio
    that is printed. *)
Definition phase_c (hardware_threads : Z) (clock : Z -> float) : M (sweep * float) :=
  k_values <- derive_k_values hardware_threads ;;
  s <- sweep_loop clock k_values initial_sweep ;;
  ret (s, ratio (snd (best s)) hardware_threads).

(** ** Where counts are stored *)

(** The variables of the program that hold a count. *)
Inductive count_var : Type :=
| var_local_count     (* line 61, in the task *)
| var_future_value    (* line 49, the value type of the futures *)
| var_total_count     (* line 45 *)
| var_engine_result   (* line 40, the return type of the engine *)
| var_nonlocal        (* line 92, Phase A *)
| var_count_result    (* line 107, Phase B *)
| var_last_count.     (* line 155, Phase C *)

Definition declared_type (v : count_var) : ctype :=
  match v with
  | var_nonlocal => Int
  | var_local_count | var_future_value | var_total_count
  | var_engine_result | var_count_result | var_last_count => LongLong
  end.

(** An assignment to a count variable converts to its declared type. *)
Definition store (v : count_var) (x : Z) : Z := convert (declared_type v) x.

(** Line 96: [nonlocal = std::count_if(data.begin(), data.end(), is_even);] *)
Definition phase_a_record (data : list Z) : Z :=
  store var_nonlocal (convert PtrdiffT (std_count_if is_even data)).

(** Lines 110-125: [count_result = std::count_if(policy, ...);] *)
Definition phase_b_record (data : list Z) : Z :=
  store var_count_result (convert PtrdiffT (std_count_if is_even data)).

(** Line 160: [last_count = custom_parallel_count_if(large_data, k);] *)
Definition phase_c_record (count : Z) : Z := store var_last_count count.

(** ** Vocabulary of the statements *)

(** The number of even elements of [D] at the indices of [[s, e)]. *)
Definition count_range (D : list Z) (s e : Z) : Z :=
  sequential_count (firstn (Z.to_nat (e - s)) (skipn (Z.to_nat s) D)).

(** Index [j] lies in the chunk [c = (start, end)], a half-open range. *)
Definition in_chunk (j : Z) (c : Z * Z) : Prop := fst c <= j < snd c.

(** The chunks of [cs] are non-empty and laid end to end from [lo] to [hi]. *)
Fixpoint contiguous (lo hi : Z) (cs : list (Z * Z)) : Prop :=
  match cs with
  | [] => lo = hi
  | c :: cs' => fst c = lo /\ fst c < snd c /\ contiguous (snd c) hi cs'
  end.

(** Chunk [c] is the range the engine computes for some worker index below
    [K], with chunk size [chunk_size], on a dataset of [size] elements. *)
Definition chunk_of_worker (K chunk_size size : Z) (c : Z * Z) : Prop :=
  exists i, 0 <= i < K /\ fst c = i * chunk_size
            /\ snd c = Z.min (i * chunk_size + chunk_size) size.

Definition launch (c : Z * Z) : event := EvAsync (fst c) (snd c).

Definition sum (l : list Z) : Z := fold_right Z.add 0 l.

(** [c] is the ceiling of [n / K]. *)
Definition is_ceiling (c n K : Z) : Prop := (c - 1) * K < n <= c * K.

(** A computation leaves the vector untouched and only extends the log. *)
Definition frame {A : Type} (c : M A) : Prop :=
  forall m, vec (snd (c m)) = vec m
            /\ exists evs, trace (snd (c m)) = trace m ++ evs.

Fixpoint ascending (l : list Z) : Prop :=
  match l with
  | [] => True
  | x :: l' =>
      match l' with
      | [] => True
      | y :: _ => x <= y /\ ascending l'
      end
  end.

(** The values the driver pushes, in push order, before sorting. *)
Definition pushed (H : Z) : list Z :=
  [convert Int 1]
    ++ (if 1 <? H then [convert Int (H / 2)] else [])
    ++ [convert Int H;
        convert Int (uint_add H (if 1 <? H then H / 2 else 1));
        convert Int (uint_mul H 2)]
    ++ (if 2 <? H then [convert Int (uint_mul H 3)] else [])
    ++ [convert Int 32].

(** The chunk of worker index [p]: [[p*c, min(p*c + c, n))]. *)
Definition chunk_at (c n p : Z) : Z * Z := (p * c, Z.min (p * c + c) n).

(** ** The dataset generator *)

(** [vec[i] = x] on a [std::vector<int>]: inside the vector the element is
    replaced, outside it the write is undefined. *)
Definition vector_store (v : list Z) (i x : Z) : option (list Z) :=
  if (0 <=? i) && (i <? Z.of_nat (length v))
  then Some (firstn (Z.to_nat i) v ++ x :: skipn (S (Z.to_nat i)) v)
  else None.

(** Lines 25-27: [for (size_t i = 0; i < size; ++i) vec[i] = distrib(gen);]
    with [n] iterations left.  [distrib] is one draw of
    [std::uniform_int_distribution<>(1, 10000)] from the generator state. *)
Fixpoint fill_loop {G : Type} (distrib : G -> Z * G) (n : nat) (i : Z)
  (v : list Z) (gen : G) : option (list Z * G) :=
  match n with
  | O => Some (v, gen)
  | S n' =>
      let (x, gen') := distrib gen in
      match vector_store v i x with
      | Some v' => fill_loop distrib n' (size_add i 1) v' gen'
      | None => None
      end
  end.

(** Lines 19-29: [std::vector<int> vec(size)] is [size] zeros; [gen] is the
    state of the [std::mt19937] after its seeding from [std::random_device]. *)
Definition generate_random_vector {G : Type} (distrib : G -> Z * G) (size : Z)
  (gen : G) : option (list Z * G) :=
  fill_loop distrib (Z.to_nat size) 0 (repeat 0 (Z.to_nat size)) gen.

(** The next [n] draws, in order. *)
Fixpoint draws {G : Type} (distrib : G -> Z * G) (n : nat) (gen : G) : list Z * G :=
  match n with
  | O => ([], gen)
  | S n' =>
      let (x, gen') := distrib gen in
      let (xs, gen'') := draws distrib n' gen' in
      (x :: xs, gen'')
  end.

(** * Properties *)

(** ** The scenarios, evaluated *)

Example scenario_run :
  run_engine [2;3;4;5;6;7;8;9;10;11] 3
  = (inr 5, {| vec := [2;3;4;5;6;7;8;9;10;11];
               trace := [EvDivide 12 3; EvAsync 0 4; EvAsync 4 8; EvAsync 8 10] |}).
Proof. vm_compute. reflexivity. Qed.

Example scenario_k_values_8 :
  fst (derive_k_values 8 {| vec := []; trace := [] |}) = inr [1; 4; 8; 12; 16; 24; 32].
Proof. vm_compute. reflexivity. Qed.

Example scenario_k_values_0 :
  derive_k_values 0 {| vec := []; trace := [] |} = (inr [0; 1; 32], {| vec := []; trace := [] |}).
Proof. vm_compute. reflexivity. Qed.

Example scenario_select :
  select_best [(1, 2.0%float); (4, 0.5%float); (8, 0.5%float)] = (0.5%float, 4).
Proof. vm_compute. reflexivity. Qed.

Example DBL_MAX_is_largest_finite :
  PrimFloat.next_up DBL_MAX = infinity /\ PrimFloat.ltb DBL_MAX infinity = true.
Proof. vm_compute. split; reflexivity. Qed.

Example scenario_ratio : ratio 1 0 = infinity /\ guarded_ratio 1 0 = 1%float /\ ratio 12 8 = 1.5%float.
Proof. vm_compute. repeat split. Qed.

(** ** Machine integers: conversions that do not wrap *)

Lemma convert_SizeT_small (v : Z) : 0 <= v <= SIZE_MAX -> convert SizeT v = v.
Proof.
  intros Hv. unfold convert, modulus. cbn [is_signed bits].
  apply Z.mod_small. unfold SIZE_MAX in Hv. lia.
Qed.

Lemma convert_signed_small (t : ctype) (v : Z) :
  is_signed t = true -> in_range t v -> convert t v = v.
Proof.
  unfold in_range, min_value, max_value, convert. intros -> Hv.
  assert (Hm : modulus t = 2 * (modulus t / 2)).
  { unfold modulus. destruct t; reflexivity. }
  rewrite Z.mod_small by lia. lia.
Qed.

Lemma convert_LongLong_small (v : Z) : 0 <= v <= LLONG_MAX -> convert LongLong v = v.
Proof.
  intros Hv. apply convert_signed_small; [reflexivity|].
  unfold in_range. change (max_value LongLong) with LLONG_MAX.
  change (min_value LongLong) with (- 9223372036854775808). lia.
Qed.

Lemma convert_Int_small (v : Z) : - 2147483648 <= v <= INT_MAX -> convert Int v = v.
Proof.
  intros Hv. apply convert_signed_small; [reflexivity|].
  unfold in_range. change (max_value Int) with INT_MAX.
  change (min_value Int) with (- 2147483648). lia.
Qed.

Lemma convert_UnsignedInt_small (v : Z) : 0 <= v <= UINT_MAX -> convert UnsignedInt v = v.
Proof.
  intros Hv. unfold convert, modulus. cbn [is_signed bits].
  apply Z.mod_small. unfold UINT_MAX in Hv. lia.
Qed.

Lemma convert_Int_range (v : Z) : - 2147483648 <= convert Int v <= INT_MAX.
Proof.
  unfold convert, modulus, INT_MAX. cbn [is_signed bits].
  change (2 ^ 32 / 2) with 2147483648. change (2 ^ 32) with 4294967296.
  pose proof (Z.mod_pos_bound (v + 2147483648) 4294967296). lia.
Qed.

Lemma ll_add_small (a b : Z) (m : machine) :
  0 <= a + b <= LLONG_MAX -> ll_add a b m = (inr (a + b), m).
Proof.
  intros H. unfold ll_add, in_rangeb.
  change (max_value LongLong) with LLONG_MAX.
  change (min_value LongLong) with (- 9223372036854775808).
  replace (- 9223372036854775808 <=? a + b) with true by (symmetry; apply Z.leb_le; lia).
  replace (a + b <=? LLONG_MAX) with true by (symmetry; apply Z.leb_le; lia).
  reflexivity.
Qed.

(** ** Counting over an index range *)

Lemma sequential_count_cons (x : Z) (l : list Z) :
  sequential_count (x :: l) = (if is_even x then 1 else 0) + sequential_count l.
Proof.
  unfold sequential_count, std_count_if. cbn [filter].
  destruct (is_even x); cbn [length]; lia.
Qed.

Lemma sequential_count_app (l1 l2 : list Z) :
  sequential_count (l1 ++ l2) = sequential_count l1 + sequential_count l2.
Proof.
  unfold sequential_count, std_count_if.
  rewrite filter_app, length_app. lia.
Qed.

Lemma sequential_count_bounds (l : list Z) :
  0 <= sequential_count l <= Z.of_nat (length l).
Proof.
  induction l as [|x l IH]; [cbn; lia|].
  rewrite sequential_count_cons. cbn [length]. destruct (is_even x); lia.
Qed.

Lemma skipn_nth_cons (l : list Z) (k : nat) :
  (k < length l)%nat -> skipn k l = nth k l 0 :: skipn (S k) l.
Proof.
  revert k. induction l as [|x l IH]; intros k Hk; [cbn in Hk; lia|].
  destruct k as [|k]; [reflexivity|].
  cbn [length] in Hk. cbn [skipn nth]. rewrite IH by lia. reflexivity.
Qed.

Lemma count_range_bounds (D : list Z) (s e : Z) :
  s <= e -> 0 <= count_range D s e <= e - s.
Proof.
  intros Hse. unfold count_range.
  pose proof (sequential_count_bounds
                (firstn (Z.to_nat (e - s)) (skipn (Z.to_nat s) D))) as Hb.
  pose proof (firstn_le_length (Z.to_nat (e - s)) (skipn (Z.to_nat s) D)).
  lia.
Qed.

Lemma firstn_plus (l : list Z) :
  forall a b : nat, firstn (a + b) l = firstn a l ++ firstn b (skipn a l).
Proof.
  induction l as [|x l IH]; intros a b.
  - rewrite !firstn_nil, skipn_nil, firstn_nil. reflexivity.
  - destruct a as [|a]; [reflexivity|].
    cbn [Nat.add firstn skipn app]. rewrite IH. reflexivity.
Qed.

Lemma skipn_plus (l : list Z) :
  forall a b : nat, skipn b (skipn a l) = skipn (a + b) l.
Proof.
  induction l as [|x l IH]; intros a b.
  - rewrite !skipn_nil. reflexivity.
  - destruct a as [|a]; [reflexivity|].
    cbn [Nat.add skipn]. apply IH.
Qed.

Lemma count_range_split (D : list Z) (a b c : Z) :
  0 <= a <= b -> b <= c ->
  count_range D a c = count_range D a b + count_range D b c.
Proof.
  intros Hab Hbc. unfold count_range.
  replace (Z.to_nat (c - a)) with (Z.to_nat (b - a) + Z.to_nat (c - b))%nat by lia.
  rewrite firstn_plus, sequential_count_app, skipn_plus.
  replace (Z.to_nat a + Z.to_nat (b - a))%nat with (Z.to_nat b) by lia.
  reflexivity.
Qed.

Lemma count_range_all (D : list Z) :
  count_range D 0 (Z.of_nat (length D)) = sequential_count D.
Proof.
  unfold count_range. rewrite Z.sub_0_r, Nat2Z.id. cbn [Z.to_nat skipn].
  rewrite firstn_all. reflexivity.
Qed.

(** ** The task *)

Lemma data_at_in_range (j : Z) (m : machine) :
  0 <= j < Z.of_nat (length (vec m)) ->
  data_at j m = (inr (nth (Z.to_nat j) (vec m) 0), m).
Proof.
  intros Hj. unfold data_at.
  replace (0 <=? j) with true by (symmetry; apply Z.leb_le; lia).
  replace (j <? Z.of_nat (length (vec m))) with true by (symmetry; apply Z.ltb_lt; lia).
  reflexivity.
Qed.

Lemma count_loop_spec (n : nat) :
  forall (j local_count : Z) (m : machine),
    0 <= j ->
    j + Z.of_nat n <= Z.of_nat (length (vec m)) ->
    Z.of_nat (length (vec m)) <= VECTOR_INT_MAX_SIZE ->
    0 <= local_count ->
    local_count + Z.of_nat n <= LLONG_MAX ->
    count_loop n j local_count m
    = (inr (local_count
            + sequential_count (firstn n (skipn (Z.to_nat j) (vec m)))), m).
Proof.
  induction n as [|n IH]; intros j lc m Hj Hjn Hmax Hlc Hov.
  - cbn [count_loop firstn]. unfold ret. cbn. rewrite Z.add_0_r. reflexivity.
  - cbn [count_loop]. unfold bind at 1.
    rewrite data_at_in_range by lia.
    rewrite (skipn_nth_cons (vec m) (Z.to_nat j)) by lia.
    cbn [firstn]. rewrite sequential_count_cons.
    assert (Hnext : size_add j 1 = j + 1).
    { unfold size_add. apply convert_SizeT_small.
      unfold VECTOR_INT_MAX_SIZE in Hmax. unfold SIZE_MAX. lia. }
    rewrite Hnext.
    replace (S (Z.to_nat j)) with (Z.to_nat (j + 1)) by lia.
    destruct (is_even (nth (Z.to_nat j) (vec m) 0)).
    + unfold bind. rewrite ll_add_small by lia.
      rewrite IH by lia. f_equal. f_equal. lia.
    + unfold bind, ret. rewrite IH by lia. f_equal.
Qed.

Lemma task_spec (s e : Z) (m : machine) :
  0 <= s <= e ->
  e <= Z.of_nat (length (vec m)) ->
  Z.of_nat (length (vec m)) <= VECTOR_INT_MAX_SIZE ->
  task s e m = (inr (count_range (vec m) s e), m).
Proof.
  intros Hse He Hmax. unfold task.
  rewrite count_loop_spec; try lia.
  - reflexivity.
  - unfold VECTOR_INT_MAX_SIZE in Hmax. unfold LLONG_MAX. lia.
Qed.

(** ** Chunks laid end to end *)

Lemma contiguous_le (cs : list (Z * Z)) :
  forall lo hi, contiguous lo hi cs -> lo <= hi.
Proof.
  induction cs as [|c cs IH]; intros lo hi H; cbn [contiguous] in H.
  - lia.
  - destruct H as (Hs & Hlt & Hrest). apply IH in Hrest. lia.
Qed.

Lemma contiguous_cover (cs : list (Z * Z)) :
  forall lo hi j,
    contiguous lo hi cs ->
    (lo <= j < hi <-> exists c, In c cs /\ in_chunk j c).
Proof.
  induction cs as [|c cs IH]; intros lo hi j H; cbn [contiguous] in H.
  - split; [lia | intros (c & [] & _)].
  - destruct H as (Hs & Hlt & Hrest).
    pose proof (contiguous_le _ _ _ Hrest) as Hle.
    specialize (IH _ _ j Hrest). unfold in_chunk in *. split.
    + intros Hj. destruct (Z_lt_le_dec j (snd c)) as [Hin | Hout].
      * exists c. split; [left; reflexivity | lia].
      * destruct IH as [IH _]. destruct IH as (c' & Hc' & Hjc'); [lia|].
        exists c'. split; [right; exact Hc' | exact Hjc'].
    + intros (c' & [-> | Hc'] & Hjc'); [lia|].
      destruct IH as [_ IH]. assert (snd c <= j < hi) by (apply IH; eauto). lia.
Qed.

Lemma contiguous_after (cs : list (Z * Z)) :
  forall lo hi q c, contiguous lo hi cs -> nth_error cs q = Some c -> lo <= fst c.
Proof.
  induction cs as [|c0 cs IH]; intros lo hi q c H Hq; cbn [contiguous] in H.
  - destruct q; discriminate.
  - destruct H as (Hs & Hlt & Hrest). destruct q as [|q]; cbn in Hq.
    + injection Hq as <-. lia.
    + specialize (IH _ _ _ _ Hrest Hq). lia.
Qed.

Lemma contiguous_ordered (cs : list (Z * Z)) :
  forall lo hi p q c1 c2,
    contiguous lo hi cs -> (p < q)%nat ->
    nth_error cs p = Some c1 -> nth_error cs q = Some c2 ->
    snd c1 <= fst c2.
Proof.
  induction cs as [|c0 cs IH]; intros lo hi p q c1 c2 H Hpq Hp Hq;
    cbn [contiguous] in H.
  - destruct p; discriminate.
  - destruct H as (Hs & Hlt & Hrest).
    destruct q as [|q]; [lia|]. cbn in Hq.
    destruct p as [|p]; cbn in Hp.
    + injection Hp as <-. eapply contiguous_after; eassumption.
    + apply (IH _ _ p q c1 c2 Hrest); [lia | exact Hp | exact Hq].
Qed.

Lemma contiguous_disjoint (cs : list (Z * Z)) (lo hi : Z) (p q : nat) (c1 c2 : Z * Z) (j : Z) :
  contiguous lo hi cs -> p <> q ->
  nth_error cs p = Some c1 -> nth_error cs q = Some c2 ->
  ~ (in_chunk j c1 /\ in_chunk j c2).
Proof.
  intros H Hpq Hp Hq [H1 H2]. unfold in_chunk in *.
  destruct (Nat.lt_ge_cases p q) as [Hlt | Hge].
  - pose proof (contiguous_ordered _ _ _ _ _ _ _ H Hlt Hp Hq). lia.
  - assert (Hlt : (q < p)%nat) by lia.
    pose proof (contiguous_ordered _ _ _ _ _ _ _ H Hlt Hq Hp). lia.
Qed.

Lemma contiguous_sum (D : list Z) (cs : list (Z * Z)) :
  forall lo hi,
    0 <= lo -> contiguous lo hi cs ->
    sum (map (fun c => count_range D (fst c) (snd c)) cs) = count_range D lo hi
    /\ Forall (fun f => 0 <= f) (map (fun c => count_range D (fst c) (snd c)) cs).
Proof.
  induction cs as [|c cs IH]; intros lo hi Hlo H; cbn [contiguous] in H.
  - subst hi. cbn [map sum fold_right]. split; [|constructor].
    pose proof (count_range_bounds D lo lo). lia.
  - destruct H as (Hs & Hlt & Hrest).
    pose proof (contiguous_le _ _ _ Hrest) as Hle.
    destruct (IH (snd c) hi) as [IHs IHf]; [lia | exact Hrest |].
    cbn [map]. split.
    + unfold sum in *. cbn [fold_right]. rewrite IHs.
      rewrite (count_range_split D lo (snd c) hi) by lia. rewrite Hs. reflexivity.
    + constructor; [|exact IHf].
      pose proof (count_range_bounds D (fst c) (snd c)). lia.
Qed.

(** ** The join *)

Lemma join_spec (futures : list Z) :
  forall (total_count : Z) (m : machine),
    Forall (fun f => 0 <= f) futures ->
    0 <= total_count ->
    total_count + sum futures <= LLONG_MAX ->
    join futures total_count m = (inr (total_count + sum futures), m).
Proof.
  induction futures as [|f rest IH]; intros t m Hpos Ht Hov.
  - cbn. unfold ret. rewrite Z.add_0_r. reflexivity.
  - inversion Hpos as [|? ? Hf Hrest]; subst.
    assert (Hs : 0 <= sum rest).
    { clear -Hrest. induction Hrest; unfold sum in *; cbn [fold_right]; lia. }
    unfold sum in *. cbn [fold_right] in *.
    cbn [join]. unfold bind. rewrite ll_add_small by lia.
    rewrite IH by (try assumption; lia). f_equal. f_equal. lia.
Qed.

(** ** The spawning loop *)

Lemma spawn_loop_spec (K chunk_size : Z) (D : list Z) (n : nat) :
  forall (i : Z) (futures : list Z) (tr : list event),
    1 <= chunk_size ->
    0 <= i ->
    i + Z.of_nat n <= K ->
    K * chunk_size <= SIZE_MAX ->
    Z.of_nat (length D) <= VECTOR_INT_MAX_SIZE ->
    exists cs,
      spawn_loop n i chunk_size (Z.of_nat (length D)) futures {| vec := D; trace := tr |}
      = (inr (futures ++ map (fun c => count_range D (fst c) (snd c)) cs),
         {| vec := D; trace := tr ++ map launch cs |})
      /\ contiguous (Z.min (i * chunk_size) (Z.of_nat (length D)))
                    (Z.min ((i + Z.of_nat n) * chunk_size) (Z.of_nat (length D))) cs
      /\ Forall (chunk_of_worker K chunk_size (Z.of_nat (length D))) cs.
Proof.
  set (size := Z.of_nat (length D)).
  induction n as [|n IH]; intros i futures tr Hc Hi HiK HK Hmax.
  - exists []. cbn [spawn_loop map]. unfold ret. rewrite !app_nil_r.
    split; [reflexivity|]. split; [|constructor].
    cbn [contiguous]. rewrite Nat2Z.inj_0, Z.add_0_r. reflexivity.
  - assert (Hic : 0 <= i * chunk_size) by nia.
    assert (Hic' : i * chunk_size + chunk_size <= K * chunk_size) by nia.
    assert (HiS : i <= SIZE_MAX) by nia.
    cbn [spawn_loop]. unfold to_size_t, size_mul, size_add.
    rewrite (convert_SizeT_small i) by lia.
    rewrite (convert_SizeT_small (i * chunk_size)) by lia.
    rewrite (convert_SizeT_small (i * chunk_size + chunk_size)) by lia.
    destruct (Z.leb_spec (Z.min (i * chunk_size + chunk_size) size) (i * chunk_size))
      as [Hskip | Hrun].
    + destruct (IH (i + 1) futures tr) as (cs & Hrun & Hcont & Hall); try lia.
      exists cs. split; [exact Hrun|]. split; [|exact Hall].
      replace (Z.min (i * chunk_size) size)
        with (Z.min ((i + 1) * chunk_size) size) by lia.
      replace (i + Z.of_nat (S n)) with (i + 1 + Z.of_nat n) by lia.
      exact Hcont.
    + set (e := Z.min (i * chunk_size + chunk_size) size) in *.
      unfold async, bind at 1. unfold bind at 1. unfold log. cbn [vec trace].
      rewrite task_spec; cbn [vec]; fold size; try lia.
      destruct (IH (i + 1) (futures ++ [count_range D (i * chunk_size) e])
                  (tr ++ [EvAsync (i * chunk_size) e]))
        as (cs & Hloop & Hcont & Hall); try lia.
      exists ((i * chunk_size, e) :: cs).
      split; [|split].
      * rewrite Hloop. cbn [map fst snd]. unfold launch at 3. cbn [fst snd].
        rewrite <- !app_assoc. reflexivity.
      * cbn [contiguous fst snd]. split; [lia|]. split; [lia|].
        replace (i + Z.of_nat (S n)) with (i + 1 + Z.of_nat n) by lia.
        replace e with (Z.min ((i + 1) * chunk_size) size) by (subst e; lia).
        exact Hcont.
      * constructor; [|exact Hall].
        exists i. cbn [fst snd]. repeat split; lia.
Qed.

(** ** The engine on a non-empty dataset *)

Lemma chunk_size_ceiling (n K : Z) :
  1 <= n -> 1 <= K -> is_ceiling ((n + K - 1) / K) n K /\ 1 <= (n + K - 1) / K.
Proof.
  intros Hn HK. unfold is_ceiling.
  pose proof (Z.div_mod (n + K - 1) K ltac:(lia)) as Hdm.
  pose proof (Z.mod_pos_bound (n + K - 1) K ltac:(lia)) as Hb.
  set (c := (n + K - 1) / K) in *.
  assert (1 <= c) by nia. split; [nia | assumption].
Qed.

Lemma engine_spec (D : list Z) (K : Z) (tr : list event) :
  D <> [] ->
  1 <= K <= INT_MAX ->
  Z.of_nat (length D) <= VECTOR_INT_MAX_SIZE ->
  let size := Z.of_nat (length D) in
  let chunk_size := (size + K - 1) / K in
  exists cs,
    custom_parallel_count_if K {| vec := D; trace := tr |}
    = (inr (sequential_count D),
       {| vec := D; trace := tr ++ EvDivide (size + K - 1) K :: map launch cs |})
    /\ contiguous 0 size cs
    /\ Forall (chunk_of_worker K chunk_size size) cs
    /\ map (fun c => count_range D (fst c) (snd c)) cs <> []
    /\ sum (map (fun c => count_range D (fst c) (snd c)) cs) = sequential_count D.
Proof.
  intros Hne HK Hmax size chunk_size.
  assert (Hsize : 1 <= size).
  { subst size. destruct D; [congruence | cbn [length]; lia]. }
  destruct (chunk_size_ceiling size K Hsize ltac:(lia)) as [Hceil Hc1].
  fold chunk_size in Hceil, Hc1. unfold is_ceiling in Hceil.
  unfold INT_MAX in HK. unfold VECTOR_INT_MAX_SIZE in Hmax.
  assert (HKc : K * chunk_size <= SIZE_MAX) by (unfold SIZE_MAX; nia).
  destruct (spawn_loop_spec K chunk_size D (Z.to_nat K) 0 [] (tr ++ [EvDivide (size + K - 1) K]))
    as (cs & Hloop & Hcont & Hall); try lia.
  { unfold VECTOR_INT_MAX_SIZE. fold size. lia. }
  fold size in Hloop, Hcont, Hall.
  rewrite Z2Nat.id in Hcont by lia.
  replace (Z.min (0 * chunk_size) size) with 0 in Hcont by lia.
  replace (Z.min ((0 + K) * chunk_size) size) with size in Hcont by lia.
  destruct (contiguous_sum D cs 0 size ltac:(lia) Hcont) as [Hsum Hpos].
  unfold size in Hsum at 1. rewrite count_range_all in Hsum.
  exists cs. split; [|repeat split; try assumption].
  - unfold custom_parallel_count_if, bind at 1, data_empty. cbn [vec].
    destruct D as [|x D']; [congruence|].
    unfold bind at 1, data_size. cbn [vec]. fold size.
    unfold to_size_t, size_add, size_sub.
    rewrite (convert_SizeT_small K) by (unfold SIZE_MAX; lia).
    rewrite (convert_SizeT_small (size + K)) by (unfold SIZE_MAX; lia).
    rewrite (convert_SizeT_small (size + K - 1)) by (unfold SIZE_MAX; lia).
    unfold bind at 1, divide.
    replace (K =? 0) with false by (symmetry; apply Z.eqb_neq; lia).
    unfold bind at 1, log, ret. cbn [vec trace].
    unfold bind at 1, reserve.
    replace (PTRDIFF_MAX <? K) with false
      by (symmetry; apply Z.ltb_ge; unfold PTRDIFF_MAX; lia).
    unfold ret. cbv beta iota. unfold bind at 1. fold chunk_size. rewrite Hloop. cbn [app].
    rewrite join_spec; try assumption; try lia.
    + rewrite Z.add_0_l, Hsum, <- app_assoc. reflexivity.
    + rewrite Z.add_0_l, Hsum.
      pose proof (sequential_count_bounds (x :: D')). fold size in H.
      unfold LLONG_MAX. lia.
  - intros Hnil. destruct cs; [cbn [contiguous] in Hcont; lia | discriminate].
Qed.

Lemma engine_empty (K : Z) (tr : list event) :
  custom_parallel_count_if K {| vec := []; trace := tr |}
  = (inr 0, {| vec := []; trace := tr |}).
Proof. reflexivity. Qed.

Lemma engine_result (D : list Z) (K : Z) (tr : list event) :
  1 <= K <= INT_MAX ->
  Z.of_nat (length D) <= VECTOR_INT_MAX_SIZE ->
  exists evs,
    custom_parallel_count_if K {| vec := D; trace := tr |}
    = (inr (sequential_count D), {| vec := D; trace := tr ++ evs |})
    /\ Forall (fun b => b <> 0) (divisors evs).
Proof.
  intros HK Hmax. destruct D as [|x D'].
  - exists []. rewrite engine_empty, app_nil_r. split; [reflexivity | constructor].
  - destruct (engine_spec (x :: D') K tr ltac:(discriminate) HK Hmax)
      as (cs & Hrun & _).
    eexists. split; [exact Hrun|].
    cbn [divisors]. constructor; [lia|].
    clear. induction cs as [|c cs IH]; [constructor | exact IH].
Qed.

Lemma spawned_launch (cs : list (Z * Z)) : spawned (map launch cs) = cs.
Proof.
  induction cs as [|[s e] cs IH]; [reflexivity|].
  cbn [map launch spawned fst snd]. rewrite IH. reflexivity.
Qed.

(** ** The frame of the engine *)

Lemma frame_ret {A : Type} (a : A) : frame (ret a).
Proof. intros m. split; [reflexivity|]. exists []. cbn. rewrite app_nil_r. reflexivity. Qed.

Lemma frame_raise {A : Type} (f : fault) : frame (@raise A f).
Proof. intros m. split; [reflexivity|]. exists []. cbn. rewrite app_nil_r. reflexivity. Qed.

Lemma frame_bind {A B : Type} (c : M A) (k : A -> M B) :
  frame c -> (forall a, frame (k a)) -> frame (bind c k).
Proof.
  intros Hc Hk m. unfold bind. destruct (Hc m) as [Hv (evs & Ht)].
  destruct (c m) as [[f | a] m']; cbn [snd] in *.
  - split; [exact Hv | exists evs; exact Ht].
  - destruct (Hk a m') as [Hv' (evs' & Ht')]. split; [congruence|].
    exists (evs ++ evs'). rewrite Ht', Ht, app_assoc. reflexivity.
Qed.

Lemma frame_log (e : event) : frame (log e).
Proof. intros m. split; [reflexivity|]. exists [e]. reflexivity. Qed.

Lemma frame_read {A : Type} (c : M A) :
  (forall m, snd (c m) = m) -> frame c.
Proof.
  intros H m. rewrite H. split; [reflexivity|]. exists []. rewrite app_nil_r. reflexivity.
Qed.

Lemma frame_data_at (j : Z) : frame (data_at j).
Proof.
  apply frame_read. intros m. unfold data_at.
  destruct ((0 <=? j) && (j <? Z.of_nat (length (vec m)))); reflexivity.
Qed.

Lemma frame_ll_add (a b : Z) : frame (ll_add a b).
Proof.
  unfold ll_add. destruct (in_rangeb LongLong (a + b));
    [apply frame_ret | apply frame_raise].
Qed.

Lemma frame_divide (a b : Z) : frame (divide a b).
Proof.
  unfold divide. destruct (b =? 0); [apply frame_raise|].
  apply frame_bind; [apply frame_log | intros; apply frame_ret].
Qed.

Lemma frame_reserve (n : Z) : frame (reserve n).
Proof.
  unfold reserve. destruct (PTRDIFF_MAX <? n); [apply frame_raise | apply frame_ret].
Qed.

Create HintDb frame.
#[local] Hint Resolve frame_ret frame_raise frame_log frame_data_at
  frame_ll_add frame_divide frame_reserve : frame.

Lemma frame_count_loop (n : nat) :
  forall j local_count, frame (count_loop n j local_count).
Proof.
  induction n as [|n IH]; intros j lc; cbn [count_loop]; auto with frame.
  apply frame_bind; auto with frame. intros x.
  apply frame_bind; [destruct (is_even x); auto with frame | intros; apply IH].
Qed.

Lemma frame_async (s e : Z) : frame (async s e).
Proof.
  unfold async, task. apply frame_bind; auto with frame.
  intros _. apply frame_count_loop.
Qed.

Lemma frame_spawn_loop (n : nat) :
  forall i chunk_size size futures, frame (spawn_loop n i chunk_size size futures).
Proof.
  induction n as [|n IH]; intros i c size fs; cbn [spawn_loop]; auto with frame.
  destruct (_ <=? _); [apply IH|].
  apply frame_bind; [apply frame_async | intros; apply IH].
Qed.

Lemma frame_join (futures : list Z) :
  forall total_count, frame (join futures total_count).
Proof.
  induction futures as [|f rest IH]; intros t; cbn [join]; auto with frame.
  apply frame_bind; auto with frame.
Qed.

Lemma frame_engine (K : Z) : frame (custom_parallel_count_if K).
Proof.
  unfold custom_parallel_count_if.
  apply frame_bind; [apply frame_read; reflexivity|].
  intros [|]; auto with frame.
  apply frame_bind; [apply frame_read; reflexivity|]. intros size.
  apply frame_bind; auto with frame. intros c.
  apply frame_bind; auto with frame. intros _.
  apply frame_bind; [apply frame_spawn_loop | intros; apply frame_join].
Qed.

(** * The engine: results *)

(** C1: on every dataset and for every worker count K >= 1 the engine returns
    exactly the sequential reference count, the number of even elements; so
    two worker counts K1, K2 >= 1 give the same result. *)
Theorem parallel_count_exact (D : list Z) (K1 K2 : Z) :
  Z.of_nat (length D) <= VECTOR_INT_MAX_SIZE ->
  1 <= K1 <= INT_MAX ->
  1 <= K2 <= INT_MAX ->
  fst (run_engine D K1) = inr (sequential_count D)
  /\ fst (run_engine D K2) = fst (run_engine D K1).
Proof.
  intros Hmax H1 H2. unfold run_engine.
  destruct (engine_result D K1 [] H1 Hmax) as (evs1 & E1 & _).
  destruct (engine_result D K2 [] H2 Hmax) as (evs2 & E2 & _).
  rewrite E1, E2. split; reflexivity.
Qed.

Lemma parallel_count_exact_witness :
  fst (run_engine [2;3;4;5;6;7;8;9;10;11] 3)
  = inr (sequential_count [2;3;4;5;6;7;8;9;10;11])
  /\ fst (run_engine [2;3;4;5;6;7;8;9;10;11] 7)
     = fst (run_engine [2;3;4;5;6;7;8;9;10;11] 3).
Proof.
  apply (parallel_count_exact [2;3;4;5;6;7;8;9;10;11] 3 7);
    [vm_compute; discriminate | split; vm_compute; discriminate
     | split; vm_compute; discriminate].
Defined.

(** C2: for a non-empty dataset and K >= 1 the chunk size is the ceiling of
    |D| / K, every launched chunk is the non-empty range
    [i*chunk_size, min(i*chunk_size + chunk_size, |D|)) of a worker index
    i < K, and the launched chunks partition [0, |D|): every index lies in
    some chunk and no two chunks share an index.  On [2..11] with K = 3 the
    chunks are [0,4), [4,8), [8,10), the partial counts 2, 2, 1, the total 5. *)
Theorem chunks_partition (D : list Z) (K : Z) :
  D <> [] ->
  1 <= K <= INT_MAX ->
  Z.of_nat (length D) <= VECTOR_INT_MAX_SIZE ->
  let size := Z.of_nat (length D) in
  let chunk_size := (size + K - 1) / K in
  let cs := spawned (trace (snd (run_engine D K))) in
  is_ceiling chunk_size size K
  /\ divisors (trace (snd (run_engine D K))) = [K]
  /\ Forall (chunk_of_worker K chunk_size size) cs
  /\ Forall (fun c => fst c < snd c) cs
  /\ (forall j, 0 <= j < size <-> exists c, In c cs /\ in_chunk j c)
  /\ (forall p q c1 c2 j,
         p <> q -> nth_error cs p = Some c1 -> nth_error cs q = Some c2 ->
         ~ (in_chunk j c1 /\ in_chunk j c2))
  /\ (let D0 := [2;3;4;5;6;7;8;9;10;11] in
      spawned (trace (snd (run_engine D0 3))) = [(0, 4); (4, 8); (8, 10)]
      /\ fst (spawn_loop 3 0 4 10 [] {| vec := D0; trace := [] |}) = inr [2; 2; 1]
      /\ fst (run_engine D0 3) = inr 5).
Proof.
  intros Hne HK Hmax size chunk_size cs.
  destruct (engine_spec D K [] Hne HK Hmax) as (cs0 & Hrun & Hcont & Hall & _).
  fold size in Hrun, Hcont, Hall. fold chunk_size in Hall.
  assert (Hcs : cs = cs0).
  { subst cs. unfold run_engine. rewrite Hrun. cbn [snd trace app spawned].
    apply spawned_launch. }
  assert (Hsize : 1 <= size).
  { subst size. destruct D; [congruence | cbn [length]; lia]. }
  split; [apply chunk_size_ceiling; lia|].
  split.
  { unfold run_engine. rewrite Hrun. cbn [snd trace app divisors]. f_equal.
    clear. induction cs0 as [|c l IH]; [reflexivity | exact IH]. }
  rewrite Hcs. split; [exact Hall|]. split.
  { clear -Hcont. revert Hcont. generalize 0 as lo.
    induction cs0 as [|c l IH]; intros lo H; [constructor|].
    cbn [contiguous] in H. destruct H as (_ & Hlt & Hrest).
    constructor; [exact Hlt | eapply IH; exact Hrest]. }
  split; [intros j; apply contiguous_cover; exact Hcont|].
  split.
  { intros p q c1 c2 j Hpq Hp Hq.
    exact (contiguous_disjoint cs0 0 size p q c1 c2 j Hcont Hpq Hp Hq). }
  vm_compute. repeat split.
Qed.

Lemma chunks_partition_witness :
  is_ceiling 4 10 3
  /\ spawned (trace (snd (run_engine [2;3;4;5;6;7;8;9;10;11] 3)))
     = [(0, 4); (4, 8); (8, 10)].
Proof.
  pose proof (chunks_partition [2;3;4;5;6;7;8;9;10;11] 3
                ltac:(discriminate)
                ltac:(split; vm_compute; discriminate)
                ltac:(vm_compute; discriminate)) as H.
  cbv zeta in H.
  destruct H as (Hceil & _ & _ & _ & _ & _ & Hchunks & _).
  split; [exact Hceil | exact Hchunks].
Defined.

(** C3: on the empty dataset, for every worker count K >= 1, the engine
    returns 0 at once and launches no task. *)
Theorem empty_dataset_zero (K : Z) :
  1 <= K ->
  fst (run_engine [] K) = inr 0
  /\ spawned (trace (snd (run_engine [] K))) = []
  /\ snd (run_engine [] K) = {| vec := []; trace := [] |}.
Proof.
  intros _. unfold run_engine. rewrite engine_empty. repeat split.
Qed.

Lemma empty_dataset_zero_witness :
  fst (run_engine [] 4) = inr 0
  /\ spawned (trace (snd (run_engine [] 4))) = []
  /\ snd (run_engine [] 4) = {| vec := []; trace := [] |}.
Proof. apply (empty_dataset_zero 4). lia. Defined.

(** C10: on the empty dataset the engine returns 0 for every value of the
    worker count, zero and the negative ones included: the early return
    comes before the chunk-size division, so nothing is divided and no task
    is launched; the log stays as it was. *)
Theorem empty_dataset_any_worker_count (K : Z) (tr : list event) :
  let r := custom_parallel_count_if K {| vec := []; trace := tr |} in
  fst r = inr 0
  /\ trace (snd r) = tr
  /\ divisors (trace (snd r)) = divisors tr
  /\ spawned (trace (snd r)) = spawned tr.
Proof.
  cbv zeta. rewrite engine_empty. repeat split.
Qed.

(** C8: the engine does not change the dataset: after the call, whatever the
    worker count and however the call ends, the vector is the one passed in;
    besides the returned value the call only adds entries to the log, and
    for K >= 1 it returns the count. *)
Theorem engine_frame (D : list Z) (K : Z) (tr : list event) :
  let r := custom_parallel_count_if K {| vec := D; trace := tr |} in
  vec (snd r) = D
  /\ (exists evs, trace (snd r) = tr ++ evs)
  /\ (1 <= K <= INT_MAX -> Z.of_nat (length D) <= VECTOR_INT_MAX_SIZE ->
      exists evs, r = (inr (sequential_count D), {| vec := D; trace := tr ++ evs |})).
Proof.
  cbv zeta. destruct (frame_engine K {| vec := D; trace := tr |}) as [Hv Ht].
  split; [exact Hv|]. split; [exact Ht|].
  intros HK Hmax. destruct (engine_result D K tr HK Hmax) as (evs & E & _).
  exists evs. exact E.
Qed.

Lemma engine_frame_witness :
  vec (snd (custom_parallel_count_if 3 {| vec := [2;3;4;5;6;7;8;9;10;11]; trace := [] |}))
  = [2;3;4;5;6;7;8;9;10;11]
  /\ exists evs,
       custom_parallel_count_if 3 {| vec := [2;3;4;5;6;7;8;9;10;11]; trace := [] |}
       = (inr (sequential_count [2;3;4;5;6;7;8;9;10;11]),
          {| vec := [2;3;4;5;6;7;8;9;10;11]; trace := [] ++ evs |}).
Proof.
  split.
  - exact (proj1 (engine_frame [2;3;4;5;6;7;8;9;10;11] 3 [])).
  - exact (proj2 (proj2 (engine_frame [2;3;4;5;6;7;8;9;10;11] 3 []))
             ltac:(split; vm_compute; discriminate)
             ltac:(vm_compute; discriminate)).
Defined.

(** * The driver *)

(** ** Sorting and removing duplicates *)

Lemma insert_sorted_In (x : Z) (l : list Z) (k : Z) :
  In k (insert_sorted x l) <-> k = x \/ In k l.
Proof.
  induction l as [|y l IH]; cbn [insert_sorted].
  - cbn. intuition.
  - destruct (x <=? y); cbn [In] in *; intuition.
Qed.

Lemma sort_In (l : list Z) (k : Z) : In k (sort l) <-> In k l.
Proof.
  induction l as [|x l IH]; cbn [sort]; [reflexivity|].
  rewrite insert_sorted_In. cbn [In]. intuition.
Qed.

Lemma ascending_cons (x : Z) (l : list Z) :
  ascending (x :: l) <-> (forall d, l <> [] -> x <= hd d l) /\ ascending l.
Proof.
  destruct l as [|y l]; cbn [ascending hd].
  - intuition.
  - split.
    + intros [Hxy Hl]. split; [intros; exact Hxy | exact Hl].
    + intros [Hh Hl]. split; [apply (Hh 0); discriminate | exact Hl].
Qed.

Lemma insert_sorted_ascending (x : Z) (l : list Z) :
  ascending l -> ascending (insert_sorted x l).
Proof.
  induction l as [|y l IH]; intros Hl; cbn [insert_sorted]; [exact I|].
  destruct (Z.leb_spec x y) as [Hxy | Hyx].
  - split; [exact Hxy | exact Hl].
  - apply ascending_cons in Hl. destruct Hl as [Hh Hl]. apply ascending_cons.
    split; [|apply IH; exact Hl].
    intros d _. destruct l as [|z l]; cbn [insert_sorted hd]; [lia|].
    specialize (Hh d ltac:(discriminate)). cbn [hd] in Hh.
    destruct (x <=? z); cbn [hd]; lia.
Qed.

Lemma sort_ascending (l : list Z) : ascending (sort l).
Proof.
  induction l as [|x l IH]; cbn [sort]; [exact I|].
  apply insert_sorted_ascending. exact IH.
Qed.

Lemma unique_In (l : list Z) (k : Z) : In k (unique l) <-> In k l.
Proof.
  induction l as [|x l IH]; [reflexivity|].
  cbn [unique]. destruct l as [|y l]; [reflexivity|].
  destruct (Z.eqb_spec x y) as [-> | Hne].
  - rewrite IH. cbn [In]. intuition.
  - cbn [In] in *. rewrite IH. reflexivity.
Qed.

Lemma unique_hd (l : list Z) (d : Z) : hd d (unique l) = hd d l.
Proof.
  induction l as [|x l IH]; [reflexivity|].
  cbn [unique]. destruct l as [|y l]; [reflexivity|].
  destruct (Z.eqb_spec x y) as [-> | Hne]; [exact IH | reflexivity].
Qed.

Lemma unique_strictly_ascending (l : list Z) :
  ascending l -> strictly_ascending (unique l).
Proof.
  induction l as [|x l IH]; intros Hl; [exact I|].
  cbn [unique]. destruct l as [|y l]; [exact I|].
  destruct Hl as [Hxy Hl]. specialize (IH Hl).
  destruct (Z.eqb_spec x y) as [-> | Hne]; [exact IH|].
  pose proof (unique_hd (y :: l) 0) as Hhd. cbn [hd] in Hhd.
  destruct (unique (y :: l)) as [|u us] eqn:E; [exact I|].
  cbn [hd] in Hhd. subst u. split; [lia | exact IH].
Qed.

Lemma strictly_ascending_above (l : list Z) :
  forall x k, strictly_ascending (x :: l) -> In k l -> x < k.
Proof.
  induction l as [|y l IH]; intros x k H Hin; [destruct Hin|].
  destruct H as [Hxy Hl]. destruct Hin as [<- | Hin]; [exact Hxy|].
  specialize (IH y k Hl Hin). lia.
Qed.

Lemma strictly_ascending_tail (x : Z) (l : list Z) :
  strictly_ascending (x :: l) -> strictly_ascending l.
Proof. destruct l as [|y l]; [intros; exact I | intros [_ H]; exact H]. Qed.

Lemma strictly_ascending_NoDup (l : list Z) : strictly_ascending l -> NoDup l.
Proof.
  induction l as [|x l IH]; intros H; constructor.
  - intros Hin. pose proof (strictly_ascending_above l x x H Hin). lia.
  - apply IH. eapply strictly_ascending_tail. exact H.
Qed.

Lemma strictly_ascending_sort (l : list Z) : strictly_ascending l -> sort l = l.
Proof.
  induction l as [|x l IH]; intros H; [reflexivity|].
  cbn [sort]. rewrite IH by (eapply strictly_ascending_tail; exact H).
  destruct l as [|y l]; [reflexivity|].
  destruct H as [Hxy _]. cbn [insert_sorted].
  replace (x <=? y) with true by (symmetry; apply Z.leb_le; lia). reflexivity.
Qed.

Lemma strictly_ascending_unique (l : list Z) : strictly_ascending l -> unique l = l.
Proof.
  induction l as [|x l IH]; intros H; [reflexivity|].
  cbn [unique]. destruct l as [|y l]; [reflexivity|].
  destruct H as [Hxy Hl].
  replace (x =? y) with false by (symmetry; apply Z.eqb_neq; lia).
  rewrite IH by exact Hl. reflexivity.
Qed.

(** ** The candidate worker counts *)

Lemma derive_k_values_run (H : Z) (m : machine) :
  derive_k_values H m
  = (inr (unique (sort (pushed H))),
     {| vec := vec m;
        trace := trace m ++ (if 1 <? H then [EvDivide H 2; EvDivide H 2] else []) |}).
Proof.
  destruct m as [D tr].
  unfold derive_k_values, pushed, push_back, divide.
  change (2 =? 0) with false. cbv iota.
  destruct (1 <? H); destruct (2 <? H);
    unfold bind, log, ret; cbn [app vec trace];
    rewrite <- ?app_assoc, ?app_nil_r; reflexivity.
Qed.

Lemma convert_Int_UnsignedInt (v : Z) :
  convert Int (convert UnsignedInt v) = convert Int v.
Proof.
  unfold convert, modulus. cbn [is_signed bits].
  rewrite Z.add_mod_idemp_l by (vm_compute; discriminate). reflexivity.
Qed.

Lemma pushed_spec_candidates (H : Z) :
  pushed H = map (convert Int) (spec_candidates H).
Proof.
  unfold pushed, spec_candidates, uint_add, uint_mul.
  rewrite !convert_Int_UnsignedInt. rewrite (Z.mul_comm H 2), (Z.mul_comm H 3).
  destruct (1 <? H); destruct (2 <? H); reflexivity.
Qed.

Lemma spec_candidates_small (H : Z) :
  0 <= H -> 3 * H <= INT_MAX ->
  map (convert Int) (spec_candidates H) = spec_candidates H.
Proof.
  intros H0 H3. unfold INT_MAX in H3.
  assert (Hhalf : 0 <= H / 2 <= H).
  { split; [apply Z.div_pos; lia | apply Z.div_le_upper_bound; lia]. }
  unfold spec_candidates.
  destruct (Z.ltb_spec 1 H); destruct (Z.ltb_spec 2 H);
    cbn [map app]; rewrite !convert_Int_small by (unfold INT_MAX; lia);
    reflexivity.
Qed.

(** C5: for every hardware concurrency H the derived list holds exactly the
    values {1, H/2 (if H>1), H, H + H/2 (if H>1, else H+1), 2H, 3H (if H>2),
    32}, as the [int] elements of the vector, and it is strictly ascending,
    hence without duplicates and unchanged by sorting and deduplicating
    again; as long as 3H fits an [int] the elements are these very numbers. *)
Theorem k_values_candidates (H : Z) (m : machine) :
  0 <= H <= UINT_MAX ->
  exists ks,
    fst (derive_k_values H m) = inr ks
    /\ strictly_ascending ks
    /\ NoDup ks
    /\ unique (sort ks) = ks
    /\ (forall k, In k ks <-> exists v, In v (spec_candidates H) /\ k = convert Int v)
    /\ (3 * H <= INT_MAX -> forall k, In k ks <-> In k (spec_candidates H)).
Proof.
  intros HH. exists (unique (sort (pushed H))).
  rewrite derive_k_values_run. cbn [fst].
  assert (Hasc : strictly_ascending (unique (sort (pushed H))))
    by (apply unique_strictly_ascending, sort_ascending).
  assert (Hin : forall k, In k (unique (sort (pushed H)))
                          <-> In k (map (convert Int) (spec_candidates H))).
  { intros k. rewrite unique_In, sort_In, pushed_spec_candidates. reflexivity. }
  split; [reflexivity|]. split; [exact Hasc|].
  split; [apply strictly_ascending_NoDup; exact Hasc|].
  split.
  { rewrite (strictly_ascending_sort _ Hasc). apply strictly_ascending_unique, Hasc. }
  split.
  - intros k. rewrite Hin, in_map_iff. split.
    + intros (v & Hv & Hk). exists v. split; [exact Hk | symmetry; exact Hv].
    + intros (v & Hv & Hk). exists v. split; [symmetry; exact Hk | exact Hv].
  - intros H3 k. rewrite Hin, spec_candidates_small by lia. reflexivity.
Qed.

Lemma k_values_candidates_witness :
  exists ks,
    fst (derive_k_values 8 {| vec := []; trace := [] |}) = inr ks
    /\ strictly_ascending ks
    /\ NoDup ks
    /\ unique (sort ks) = ks
    /\ (forall k, In k ks <-> exists v, In v (spec_candidates 8) /\ k = convert Int v)
    /\ (3 * 8 <= INT_MAX -> forall k, In k ks <-> In k (spec_candidates 8)).
Proof.
  apply (k_values_candidates 8 {| vec := []; trace := [] |}).
  split; vm_compute; discriminate.
Defined.

(** ** The sweep *)

Lemma divisors_app (a b : list event) : divisors (a ++ b) = divisors a ++ divisors b.
Proof.
  induction a as [|[x y | s e] a IH]; cbn [app divisors]; [reflexivity | |exact IH].
  rewrite IH. reflexivity.
Qed.

Lemma to_size_t_negative (K : Z) :
  - 2147483648 <= K < 0 -> to_size_t K = K + 18446744073709551616.
Proof.
  intros HK. unfold to_size_t, convert, modulus. cbn [is_signed bits].
  change (2 ^ 64) with 18446744073709551616.
  rewrite <- (Z_mod_plus_full K 1 18446744073709551616).
  apply Z.mod_small. lia.
Qed.

Lemma engine_negative (D : list Z) (K : Z) (tr : list event) :
  D <> [] ->
  - 2147483648 <= K < 0 ->
  exists evs,
    custom_parallel_count_if K {| vec := D; trace := tr |}
    = (inl LengthError, {| vec := D; trace := tr ++ evs |})
    /\ Forall (fun b => b <> 0) (divisors evs).
Proof.
  intros Hne HK. destruct D as [|x D']; [congruence|].
  unfold custom_parallel_count_if, bind at 1, data_empty. cbn [vec].
  unfold bind at 1, data_size. cbn [vec].
  rewrite (to_size_t_negative K HK).
  set (s := K + 18446744073709551616).
  unfold bind at 1, divide.
  replace (s =? 0) with false by (symmetry; apply Z.eqb_neq; subst s; lia).
  unfold bind at 1, log, ret. cbn [vec trace]. cbv beta iota.
  unfold bind at 1, reserve.
  replace (PTRDIFF_MAX <? s) with true
    by (symmetry; apply Z.ltb_lt; unfold PTRDIFF_MAX; subst s; lia).
  unfold raise. eexists. split; [reflexivity|].
  cbn [divisors]. constructor; [subst s; lia | constructor].
Qed.

(** How a call of the engine with a non-zero [int] worker count ends. *)
Lemma engine_outcome (D : list Z) (K : Z) (tr : list event) :
  - 2147483648 <= K <= INT_MAX -> K <> 0 ->
  Z.of_nat (length D) <= VECTOR_INT_MAX_SIZE ->
  exists evs,
    snd (custom_parallel_count_if K {| vec := D; trace := tr |})
    = {| vec := D; trace := tr ++ evs |}
    /\ Forall (fun b => b <> 0) (divisors evs)
    /\ (fst (custom_parallel_count_if K {| vec := D; trace := tr |}) = inl LengthError
        \/ fst (custom_parallel_count_if K {| vec := D; trace := tr |})
           = inr (sequential_count D)).
Proof.
  intros HK HK0 Hmax. destruct (Z_lt_le_dec K 0) as [Hneg | Hpos].
  - destruct D as [|x D'].
    + exists []. rewrite engine_empty, app_nil_r. cbn [fst snd].
      split; [reflexivity|]. split; [constructor | right; reflexivity].
    + destruct (engine_negative (x :: D') K tr ltac:(discriminate) ltac:(lia))
        as (evs & E & Hd).
      exists evs. rewrite E. cbn [fst snd]. auto.
  - destruct (engine_result D K tr ltac:(lia) Hmax) as (evs & E & Hd).
    exists evs. rewrite E. cbn [fst snd]. auto.
Qed.

Section Sweep.

Variable clock : Z -> float.
Variable D : list Z.
Hypothesis D_fits : Z.of_nat (length D) <= VECTOR_INT_MAX_SIZE.

(** A sweep over [int] candidates ends with a result or with the
    [std::length_error] of a negative worker count; it never divides by zero. *)
Lemma sweep_loop_outcome (k_values : list Z) :
  forall (s : sweep) (tr : list event),
    Forall (fun k => - 2147483648 <= k <= INT_MAX) k_values ->
    exists evs,
      snd (sweep_loop clock k_values s {| vec := D; trace := tr |})
      = {| vec := D; trace := tr ++ evs |}
      /\ Forall (fun b => b <> 0) (divisors evs)
      /\ (fst (sweep_loop clock k_values s {| vec := D; trace := tr |}) = inl LengthError
          \/ exists s', fst (sweep_loop clock k_values s {| vec := D; trace := tr |}) = inr s').
Proof.
  induction k_values as [|k rest IH]; intros s tr Hks.
  - exists []. cbn. rewrite app_nil_r. split; [reflexivity|].
    split; [constructor | right; eexists; reflexivity].
  - inversion Hks as [|? ? Hk Hrest]; subst. cbn [sweep_loop].
    destruct (Z.eqb_spec k 0) as [-> | Hk0]; [apply IH; assumption|].
    destruct (engine_outcome D k tr Hk Hk0 D_fits) as (evs & Hm & Hd & Hr).
    unfold bind.
    destruct (custom_parallel_count_if k {| vec := D; trace := tr |}) as [[f | c] m1].
    + cbn [fst snd] in *. subst m1. exists evs.
      split; [reflexivity|]. split; [exact Hd|].
      destruct Hr as [Hr | Hr]; [injection Hr as ->; left; reflexivity | discriminate Hr].
    + cbn [fst snd] in *. subst m1.
      destruct (IH {| best := update_best (best s) k (clock k); last_count := c |}
                   (tr ++ evs) Hrest) as (evs' & Hm' & Hd' & Hr').
      exists (evs ++ evs'). rewrite Hm', app_assoc, divisors_app.
      split; [reflexivity|]. split; [apply Forall_app; split; assumption | exact Hr'].
Qed.

(** The best configuration of a sweep that completes is the selection over
    its records. *)
Lemma sweep_loop_best (k_values : list Z) :
  forall (s s' : sweep) (m m' : machine),
    sweep_loop clock k_values s m = (inr s', m') ->
    best s' = fold_left (fun b r => update_best b (fst r) (snd r))
                        (sweep_records clock k_values) (best s).
Proof.
  unfold sweep_records.
  induction k_values as [|k rest IH]; intros s s' m m' Hrun.
  - cbn in Hrun. injection Hrun as -> _. reflexivity.
  - cbn [sweep_loop] in Hrun. cbn [filter].
    destruct (k =? 0); cbn [negb]; [exact (IH _ _ _ _ Hrun)|].
    unfold bind in Hrun.
    destruct (custom_parallel_count_if k m) as [[f | c] m1]; [discriminate|].
    cbn [map fold_left fst snd]. rewrite (IH _ _ _ _ Hrun). reflexivity.
Qed.

(** A sweep over worker counts that are not negative completes. *)
Lemma sweep_loop_completes (k_values : list Z) :
  forall (s : sweep) (tr : list event),
    Forall (fun k => 0 <= k <= INT_MAX) k_values ->
    exists s' m', sweep_loop clock k_values s {| vec := D; trace := tr |} = (inr s', m').
Proof.
  induction k_values as [|k rest IH]; intros s tr Hks.
  - eexists. eexists. reflexivity.
  - inversion Hks as [|? ? Hk Hrest]; subst. cbn [sweep_loop].
    destruct (Z.eqb_spec k 0) as [-> | Hk0]; [apply IH; assumption|].
    destruct (engine_result D k tr ltac:(lia) D_fits) as (evs & E & _).
    unfold bind. rewrite E. apply IH; assumption.
Qed.

End Sweep.

(** ** The selection *)

Lemma select_fold_source (pre : list (Z * float)) :
  forall b0,
    let b := fold_left (fun b r => update_best b (fst r) (snd r)) pre b0 in
    b = b0 \/ exists r, In r pre /\ fst b = snd r.
Proof.
  induction pre as [|r pre IH]; intros b0; cbn [fold_left]; [left; reflexivity|].
  destruct (IH (update_best b0 (fst r) (snd r))) as [E | (r' & Hin & E)].
  - cbv zeta in E. rewrite E. unfold update_best.
    destruct (PrimFloat.ltb (snd r) (fst b0)).
    + right. exists r. split; [left; reflexivity | reflexivity].
    + left. reflexivity.
  - right. exists r'. split; [right; exact Hin | exact E].
Qed.

Lemma select_fold_keep (post : list (Z * float)) (b : float * Z) :
  (forall r, In r post -> PrimFloat.ltb (snd r) (fst b) = false) ->
  fold_left (fun b r => update_best b (fst r) (snd r)) post b = b.
Proof.
  induction post as [|r post IH]; intros H; cbn [fold_left]; [reflexivity|].
  unfold update_best at 2. rewrite (H r) by (left; reflexivity).
  apply IH. intros r' Hr'. apply H. right. exact Hr'.
Qed.

Lemma select_fold_split (pre post : list (Z * float)) (k : Z) (t : float) (b0 : float * Z) :
  PrimFloat.ltb t (fst b0) = true ->
  (forall r, In r pre -> PrimFloat.ltb t (snd r) = true) ->
  (forall r, In r post -> PrimFloat.ltb (snd r) t = false) ->
  fold_left (fun b r => update_best b (fst r) (snd r)) (pre ++ (k, t) :: post) b0 = (t, k).
Proof.
  intros H0 Hpre Hpost. rewrite fold_left_app. cbn [fold_left fst snd].
  assert (Hb : update_best
                 (fold_left (fun b r => update_best b (fst r) (snd r)) pre b0) k t
               = (t, k)).
  { unfold update_best at 1.
    destruct (select_fold_source pre b0) as [E | (r & Hin & E)];
      cbv zeta in E; rewrite E.
    - rewrite H0. reflexivity.
    - rewrite (Hpre r Hin). reflexivity. }
  rewrite Hb. apply select_fold_keep. exact Hpost.
Qed.

(** C6: the selection is the running minimum under strict less-than: a
    record replaces the current best exactly when its time is strictly
    smaller; so the reported best K is that of the record whose time is
    strictly smaller than the time of every earlier record and that no later
    record beats strictly, and on an exact tie the K seen first stays.  For
    the records (1, 2.0), (4, 0.5), (8, 0.5) the best K is 4.  The sweep of
    the driver computes this selection over its records. *)
Theorem best_k_first_minimum (records : list (Z * float)) (i : nat) (k : Z) (t : float) :
  nth_error records i = Some (k, t) ->
  PrimFloat.ltb t DBL_MAX = true ->
  (forall j r, (j < i)%nat -> nth_error records j = Some r ->
               PrimFloat.ltb t (snd r) = true) ->
  (forall j r, (i < j)%nat -> nth_error records j = Some r ->
               PrimFloat.ltb (snd r) t = false) ->
  select_best records = (t, k)
  /\ (forall rs k' t',
         select_best (rs ++ [(k', t')])
         = if PrimFloat.ltb t' (fst (select_best rs)) then (t', k') else select_best rs)
  /\ (forall clock D ks tr,
         Z.of_nat (length D) <= VECTOR_INT_MAX_SIZE ->
         Forall (fun K => 0 <= K <= INT_MAX) ks ->
         exists s' m',
           sweep_loop clock ks initial_sweep {| vec := D; trace := tr |} = (inr s', m')
           /\ best s' = select_best (sweep_records clock ks))
  /\ select_best [(1, 2.0%float); (4, 0.5%float); (8, 0.5%float)] = (0.5%float, 4).
Proof.
  intros Hi Hmax Hearlier Hlater.
  split; [|split; [|split]].
  - destruct (nth_error_split records i Hi) as (pre & post & -> & Hlen).
    unfold select_best. apply select_fold_split.
    + exact Hmax.
    + intros r Hin. destruct (In_nth_error pre r Hin) as (j & Hj).
      assert (Hlt : (j < i)%nat).
      { rewrite <- Hlen. apply nth_error_Some. rewrite Hj. discriminate. }
      apply (Hearlier j r Hlt). rewrite nth_error_app1 by lia. exact Hj.
    + intros r Hin. destruct (In_nth_error post r Hin) as (j & Hj).
      apply (Hlater (S (i + j)) r ltac:(lia)).
      rewrite nth_error_app2 by lia.
      replace (S (i + j) - length pre)%nat with (S j) by lia. exact Hj.
  - intros rs k' t'. unfold select_best. rewrite fold_left_app. reflexivity.
  - intros clock D ks tr HD Hks.
    destruct (sweep_loop_completes clock D HD ks initial_sweep tr Hks) as (s' & m' & Hrun).
    exists s', m'. split; [exact Hrun|].
    exact (sweep_loop_best clock ks initial_sweep s' _ m' Hrun).
  - vm_compute. reflexivity.
Qed.

Lemma best_k_first_minimum_witness :
  select_best [(1, 2.0%float); (4, 0.5%float); (8, 0.5%float)] = (0.5%float, 4).
Proof.
  refine (proj1 (best_k_first_minimum
                   [(1, 2.0%float); (4, 0.5%float); (8, 0.5%float)] 1 4 0.5%float
                   eq_refl eq_refl _ _)).
  - intros j r Hj. destruct j as [|j]; [|lia].
    intros E. injection E as <-. reflexivity.
  - intros j r Hj. destruct j as [|[|[|j]]]; try lia.
    + intros E. injection E as <-. reflexivity.
    + cbn. destruct j; discriminate.
Defined.

(** ** The guard against a zero worker count *)

Lemma k_values_in_int_range (H : Z) :
  Forall (fun k => - 2147483648 <= k <= INT_MAX) (unique (sort (pushed H))).
Proof.
  apply Forall_forall. intros k Hk.
  rewrite unique_In, sort_In, pushed_spec_candidates, in_map_iff in Hk.
  destruct Hk as (v & <- & _). apply convert_Int_range.
Qed.

Lemma derive_divisors (H : Z) :
  Forall (fun b => b = 2)
         (divisors (if 1 <? H then [EvDivide H 2; EvDivide H 2] else [])).
Proof. destruct (1 <? H); cbn [divisors]; repeat constructor. Qed.

Lemma engine_zero_worker_count (D : list Z) (tr : list event) :
  D <> [] ->
  custom_parallel_count_if 0 {| vec := D; trace := tr |}
  = (inl DivisionByZero, {| vec := D; trace := tr |}).
Proof. intros Hne. destruct D as [|x D']; [congruence | reflexivity]. Qed.


(** C4, as the code has it: the guard against a zero worker count sits in
    the driver, not in the engine.  The sweep skips every candidate equal to
    0 before it calls the engine, so in no run of the sweep, for any
    hardware concurrency and dataset, is the chunk-size division of the
    engine performed with a zero divisor: every candidate that is run
    converts to a non-zero [size_t] divisor and the sweep never ends in a
    division by zero.  The engine itself does not check its worker count,
    and called with 0 on a non-empty dataset it reaches the chunk-size
    division with a zero divisor. *)
Theorem driver_guards_zero_worker_count
  (H : Z) (clock : Z -> float) (D : list Z) (tr : list event) :
  0 <= H <= UINT_MAX ->
  Z.of_nat (length D) <= VECTOR_INT_MAX_SIZE ->
  exists ks evs0,
    derive_k_values H {| vec := D; trace := tr |}
    = (inr ks, {| vec := D; trace := tr ++ evs0 |})
    /\ fst (sweep_loop clock ks initial_sweep {| vec := D; trace := tr ++ evs0 |})
       <> inl DivisionByZero
    /\ (fst (sweep_loop clock ks initial_sweep {| vec := D; trace := tr ++ evs0 |})
        = inl LengthError
        \/ exists s,
             fst (sweep_loop clock ks initial_sweep {| vec := D; trace := tr ++ evs0 |})
             = inr s)
    /\ (forall k, In k ks -> k <> 0 -> to_size_t k <> 0)
    /\ (forall rest s m, sweep_loop clock (0 :: rest) s m = sweep_loop clock rest s m)
    /\ (D <> [] ->
        custom_parallel_count_if 0 {| vec := D; trace := tr |}
        = (inl DivisionByZero, {| vec := D; trace := tr |})).
Proof.
  intros HH Hmax.
  exists (unique (sort (pushed H))),
         (if 1 <? H then [EvDivide H 2; EvDivide H 2] else []).
  set (ks := unique (sort (pushed H))).
  set (evs0 := if 1 <? H then [EvDivide H 2; EvDivide H 2] else []).
  destruct (sweep_loop_outcome clock D Hmax ks initial_sweep (tr ++ evs0)
              (k_values_in_int_range H)) as (evs & _ & _ & Hres).
  split; [apply (derive_k_values_run H {| vec := D; trace := tr |})|].
  split; [destruct Hres as [E | (s & E)]; rewrite E; discriminate|].
  split; [exact Hres|].
  split; [|split; [reflexivity | apply engine_zero_worker_count]].
  intros k Hk Hk0.
  pose proof (k_values_in_int_range H) as Hrange.
  rewrite Forall_forall in Hrange. specialize (Hrange k Hk). unfold INT_MAX in Hrange.
  destruct (Z_lt_le_dec k 0) as [Hneg | Hpos].
  - rewrite to_size_t_negative by lia. lia.
  - unfold to_size_t. rewrite convert_SizeT_small by (unfold SIZE_MAX; lia). lia.
Qed.

Lemma driver_guards_zero_worker_count_witness :
  exists ks evs0,
    derive_k_values 0 {| vec := [2; 3; 4]; trace := [] |}
    = (inr ks, {| vec := [2; 3; 4]; trace := [] ++ evs0 |})
    /\ fst (sweep_loop (fun _ => 1%float) ks initial_sweep
              {| vec := [2; 3; 4]; trace := [] ++ evs0 |})
       <> inl DivisionByZero
    /\ (fst (sweep_loop (fun _ => 1%float) ks initial_sweep
               {| vec := [2; 3; 4]; trace := [] ++ evs0 |})
        = inl LengthError
        \/ exists s,
             fst (sweep_loop (fun _ => 1%float) ks initial_sweep
                    {| vec := [2; 3; 4]; trace := [] ++ evs0 |})
             = inr s)
    /\ (forall k, In k ks -> k <> 0 -> to_size_t k <> 0)
    /\ (forall rest s m,
           sweep_loop (fun _ => 1%float) (0 :: rest) s m
           = sweep_loop (fun _ => 1%float) rest s m)
    /\ ([2; 3; 4] <> [] ->
        custom_parallel_count_if 0 {| vec := [2; 3; 4]; trace := [] |}
        = (inl DivisionByZero, {| vec := [2; 3; 4]; trace := [] |})).
Proof.
  apply (driver_guards_zero_worker_count 0 (fun _ => 1%float) [2; 3; 4] []).
  - split; vm_compute; discriminate.
  - vm_compute. discriminate.
Defined.

(** C4 as stated fails on the engine: called with worker count 0 on the
    dataset [2] it performs the chunk-size division with divisor 0. *)
Lemma engine_zero_workers_divides_by_zero :
  run_engine [2] 0 = (inl DivisionByZero, {| vec := [2]; trace := [] |}).
Proof. vm_compute. reflexivity. Qed.

(** ** Hardware concurrency 0 *)

(** C7, as the code has it: with hardware concurrency 0 the derivation of
    the candidates divides by nothing (for any H its only divisions are by
    the constant 2), the derived list is 0, 1, 32 and so contains 1 and 32,
    and the sweep skips the 0 and runs the engine with K = 1 and K = 32
    only, without any division by zero. *)
Theorem zero_hardware_concurrency (clock : Z -> float) (D : list Z) (tr : list event) :
  Z.of_nat (length D) <= VECTOR_INT_MAX_SIZE ->
  derive_k_values 0 {| vec := D; trace := tr |}
  = (inr [0; 1; 32], {| vec := D; trace := tr |})
  /\ In 1 [0; 1; 32] /\ In 32 [0; 1; 32]
  /\ (forall H m, exists ks evs,
         derive_k_values H m = (inr ks, {| vec := vec m; trace := trace m ++ evs |})
         /\ Forall (fun b => b = 2) (divisors evs))
  /\ (exists evs,
         sweep_loop clock [0; 1; 32] initial_sweep {| vec := D; trace := tr |}
         = (inr {| best := select_best [(1, clock 1); (32, clock 32)];
                   last_count := sequential_count D |},
            {| vec := D; trace := tr ++ evs |})
         /\ Forall (fun b => b <> 0) (divisors evs)).
Proof.
  intros Hmax.
  split; [reflexivity|]. split; [cbn; tauto|]. split; [cbn; tauto|]. split.
  - intros H m. eexists. eexists. split; [apply derive_k_values_run|].
    apply derive_divisors.
  - destruct (engine_result D 1 tr ltac:(unfold INT_MAX; lia) Hmax) as (evs1 & E1 & Hd1).
    destruct (engine_result D 32 (tr ++ evs1) ltac:(unfold INT_MAX; lia) Hmax)
      as (evs2 & E2 & Hd2).
    exists (evs1 ++ evs2). split.
    + cbn [sweep_loop]. change (0 =? 0) with true. change (1 =? 0) with false.
      change (32 =? 0) with false. cbv iota.
      unfold bind at 1. rewrite E1. unfold bind at 1. rewrite E2.
      rewrite app_assoc. reflexivity.
    + rewrite divisors_app. apply Forall_app. split; assumption.
Qed.

Lemma zero_hardware_concurrency_witness :
  derive_k_values 0 {| vec := [2; 3; 4]; trace := [] |}
  = (inr [0; 1; 32], {| vec := [2; 3; 4]; trace := [] |}).
Proof.
  exact (proj1 (zero_hardware_concurrency (fun _ => 1%float) [2; 3; 4] []
                  ltac:(vm_compute; discriminate))).
Defined.

(** C7 as stated fails on the ratio: with hardware concurrency 0 the driver
    divides the best K by 0 itself, which gives infinity, where a fallback to
    1 would give the best K. *)
Lemma ratio_divides_by_zero_concurrency :
  exists s r m',
    phase_c 0 (fun _ => 1%float) {| vec := [2]; trace := [] |} = (inr (s, r), m')
    /\ snd (best s) = 1
    /\ r = infinity
    /\ guarded_ratio (snd (best s)) 0 = 1%float
    /\ r <> guarded_ratio (snd (best s)) 0.
Proof.
  eexists. eexists. eexists. split; [vm_compute; reflexivity|].
  split; [reflexivity|]. split; [reflexivity|]. split; [reflexivity|].
  vm_compute. discriminate.
Qed.

(** ** The width of the stored counts *)

Lemma convert_count (t : ctype) (c : Z) : 0 <= c <= 100000000 -> convert t c = c.
Proof.
  intros Hc. destruct t.
  - apply convert_Int_small. unfold INT_MAX. lia.
  - apply convert_UnsignedInt_small. unfold UINT_MAX. lia.
  - apply convert_LongLong_small. unfold LLONG_MAX. lia.
  - apply convert_SizeT_small. unfold SIZE_MAX. lia.
  - apply convert_signed_small; [reflexivity|].
    unfold in_range. change (max_value PtrdiffT) with PTRDIFF_MAX.
    change (min_value PtrdiffT) with (- 9223372036854775808).
    unfold PTRDIFF_MAX. lia.
Qed.

Lemma count_range_le_size (D : list Z) (s e : Z) :
  0 <= count_range D s e <= Z.of_nat (length D).
Proof.
  unfold count_range.
  pose proof (sequential_count_bounds
                (firstn (Z.to_nat (e - s)) (skipn (Z.to_nat s) D))) as Hb.
  rewrite length_firstn, length_skipn in Hb. lia.
Qed.

(** C9, as the code has it: the partial counts and the total of the engine
    and the counts the driver records in Phases B and C are held in 64-bit
    [long long] variables; the count the driver records from the sequential
    baseline in Phase A is held in the 32-bit [int nonlocal].  For data
    sizes up to 10^8 every one of these variables, the 32-bit one included,
    holds its count exactly. *)
Theorem counts_storage (D : list Z) (K : Z) :
  Z.of_nat (length D) <= 100000000 ->
  1 <= K <= INT_MAX ->
  (forall v, v <> var_nonlocal -> bits (declared_type v) = 64)
  /\ bits (declared_type var_nonlocal) = 32
  /\ phase_a_record D = std_count_if is_even D
  /\ phase_b_record D = std_count_if is_even D
  /\ (forall c, In c (spawned (trace (snd (run_engine D K)))) ->
                in_range LongLong (count_range D (fst c) (snd c))
                /\ store var_local_count (count_range D (fst c) (snd c))
                   = count_range D (fst c) (snd c)
                /\ store var_future_value (count_range D (fst c) (snd c))
                   = count_range D (fst c) (snd c))
  /\ (exists total,
         fst (run_engine D K) = inr total
         /\ in_range LongLong total
         /\ store var_total_count total = total
         /\ store var_engine_result total = total
         /\ phase_c_record total = total).
Proof.
  intros Hsize HK.
  pose proof (sequential_count_bounds D) as Hcount. unfold sequential_count in Hcount.
  assert (Hll : forall x, 0 <= x <= 100000000 -> in_range LongLong x).
  { intros x Hx. unfold in_range. change (max_value LongLong) with LLONG_MAX.
    change (min_value LongLong) with (- 9223372036854775808). unfold LLONG_MAX. lia. }
  split; [intros v Hv; destruct v; try reflexivity; congruence|].
  split; [reflexivity|].
  split; [unfold phase_a_record, store;
          rewrite (convert_count PtrdiffT) by lia; rewrite convert_count by lia;
          reflexivity|].
  split; [unfold phase_b_record, store;
          rewrite (convert_count PtrdiffT) by lia; rewrite convert_count by lia;
          reflexivity|].
  split.
  - intros c _. pose proof (count_range_le_size D (fst c) (snd c)) as Hb.
    unfold store. rewrite !convert_count by lia.
    split; [apply Hll; lia | split; reflexivity].
  - assert (Hmax : Z.of_nat (length D) <= VECTOR_INT_MAX_SIZE)
      by (unfold VECTOR_INT_MAX_SIZE; lia).
    destruct (engine_result D K [] HK Hmax) as (evs & E & _).
    exists (sequential_count D). unfold run_engine. rewrite E. cbn [fst].
    unfold phase_c_record, store, sequential_count.
    rewrite !convert_count by lia.
    split; [reflexivity|]. split; [apply Hll; lia|]. repeat split.
Qed.

Lemma counts_storage_witness :
  phase_a_record [2;3;4;5;6;7;8;9;10;11] = std_count_if is_even [2;3;4;5;6;7;8;9;10;11].
Proof.
  exact (proj1 (proj2 (proj2
    (counts_storage [2;3;4;5;6;7;8;9;10;11] 3
       ltac:(vm_compute; discriminate)
       ltac:(split; vm_compute; discriminate))))).
Defined.

(** C9 as stated fails at the Phase A variable: [nonlocal] is a 32-bit
    [int], so not every count variable is 64 bits wide, and storing a count
    of 2^31, which a 64-bit variable holds, narrows it. *)
Lemma nonlocal_is_32_bit :
  ~ (forall v, bits (declared_type v) = 64)
  /\ declared_type var_nonlocal = Int
  /\ in_range LongLong 2147483648
  /\ store var_count_result 2147483648 = 2147483648
  /\ store var_nonlocal 2147483648 = - 2147483648.
Proof.
  split; [intros H; specialize (H var_nonlocal); discriminate H|].
  split; [reflexivity|]. split; [split; vm_compute; discriminate|].
  split; reflexivity.
Qed.

(** * Further properties of the engine *)

(** ** The predicate and the task *)

(** X1: [is_even] decides parity on every integer, the negative ones
    included: it holds exactly for the multiples of 2. *)
Theorem is_even_parity (n : Z) :
  is_even n = Z.even n /\ (is_even n = true <-> exists k, n = 2 * k).
Proof.
  assert (H : is_even n = true <-> exists k, n = 2 * k).
  { unfold is_even. rewrite Z.eqb_eq, Z.rem_divide by discriminate.
    split; intros [k Hk]; exists k; lia. }
  split; [|exact H].
  destruct (Z.even n) eqn:E.
  - apply H. apply Z.even_spec in E. destruct E as [k Hk]. exists k. exact Hk.
  - destruct (is_even n) eqn:E'; [|reflexivity].
    destruct H as [H _]. destruct (H eq_refl) as [k Hk].
    assert (Z.even n = true) by (apply Z.even_spec; exists k; exact Hk).
    congruence.
Qed.

(** X2: a task on a chunk inside the vector returns the number of even
    elements of the chunk and leaves the vector and the log as they were. *)
Theorem task_counts_its_chunk (D : list Z) (s e : Z) (tr : list event) :
  0 <= s <= e ->
  e <= Z.of_nat (length D) ->
  Z.of_nat (length D) <= VECTOR_INT_MAX_SIZE ->
  task s e {| vec := D; trace := tr |}
  = (inr (sequential_count (firstn (Z.to_nat (e - s)) (skipn (Z.to_nat s) D))),
     {| vec := D; trace := tr |})
  /\ 0 <= sequential_count (firstn (Z.to_nat (e - s)) (skipn (Z.to_nat s) D)) <= e - s.
Proof.
  intros Hse He Hmax. split.
  - rewrite task_spec by (cbn [vec]; lia). reflexivity.
  - apply (count_range_bounds D s e). lia.
Qed.

Lemma task_counts_its_chunk_witness :
  task 4 8 {| vec := [2;3;4;5;6;7;8;9;10;11]; trace := [] |}
  = (inr 2, {| vec := [2;3;4;5;6;7;8;9;10;11]; trace := [] |}).
Proof.
  exact (proj1 (task_counts_its_chunk [2;3;4;5;6;7;8;9;10;11] 4 8 []
                  ltac:(lia) ltac:(vm_compute; discriminate)
                  ltac:(vm_compute; discriminate))).
Defined.

(** ** A negative worker count *)

(** X3: called with a negative worker count on a non-empty dataset the
    engine ends in the [std::length_error] of [futures.reserve]: the chunk
    size division is done, with the worker count converted to [size_t] as
    its non-zero divisor, no task is launched and the dataset is unchanged. *)
Theorem negative_worker_count_length_error (D : list Z) (K : Z) (tr : list event) :
  D <> [] ->
  - 2147483648 <= K < 0 ->
  exists dividend,
    custom_parallel_count_if K {| vec := D; trace := tr |}
    = (inl LengthError,
       {| vec := D; trace := tr ++ [EvDivide dividend (K + 18446744073709551616)] |}).
Proof.
  intros Hne HK. destruct D as [|x D']; [congruence|].
  unfold custom_parallel_count_if, bind at 1, data_empty. cbn [vec].
  unfold bind at 1, data_size. cbn [vec].
  rewrite (to_size_t_negative K HK).
  set (s := K + 18446744073709551616).
  unfold bind at 1, divide.
  replace (s =? 0) with false by (symmetry; apply Z.eqb_neq; subst s; lia).
  unfold bind at 1, log, ret. cbn [vec trace]. cbv beta iota.
  unfold bind at 1, reserve.
  replace (PTRDIFF_MAX <? s) with true
    by (symmetry; apply Z.ltb_lt; unfold PTRDIFF_MAX; subst s; lia).
  unfold raise. eexists. reflexivity.
Qed.

Lemma negative_worker_count_length_error_witness :
  exists dividend,
    custom_parallel_count_if (-1) {| vec := [2; 3; 4]; trace := [] |}
    = (inl LengthError,
       {| vec := [2; 3; 4];
          trace := [] ++ [EvDivide dividend (-1 + 18446744073709551616)] |}).
Proof.
  apply (negative_worker_count_length_error [2; 3; 4] (-1) []);
    [discriminate | lia].
Defined.

(** ** The chunks in launch order *)

Lemma contiguous_same (cs : list (Z * Z)) (lo : Z) : contiguous lo lo cs -> cs = [].
Proof.
  destruct cs as [|c cs]; [reflexivity|]. cbn [contiguous].
  intros (Hs & Hlt & Hrest). pose proof (contiguous_le _ _ _ Hrest). lia.
Qed.

Lemma chunks_enumerated (c n : Z) (cs : list (Z * Z)) :
  forall q,
    1 <= c -> 0 <= q -> q * c <= n ->
    contiguous (q * c) n cs ->
    Forall (fun ch => snd ch = Z.min (fst ch + c) n) cs ->
    cs = map (fun p => chunk_at c n (q + Z.of_nat p)) (seq 0 (length cs))
    /\ Z.of_nat (length cs) = (n - q * c + c - 1) / c.
Proof.
  induction cs as [|ch rest IH]; intros q Hc Hq Hqn Hcont Hend.
  - cbn [contiguous] in Hcont. cbn [length seq map]. split; [reflexivity|].
    replace (n - q * c + c - 1) with (c - 1) by lia.
    rewrite Z.div_small by lia. reflexivity.
  - cbn [contiguous] in Hcont. destruct Hcont as (Hs & Hlt & Hrest).
    inversion Hend as [|? ? He Hend']; subst.
    destruct (Z_le_gt_dec (q * c + c) n) as [Hfull | Hlast].
    + assert (Hsnd : snd ch = (q + 1) * c) by lia.
      rewrite Hsnd in Hrest.
      destruct (IH (q + 1) Hc ltac:(lia) ltac:(lia) Hrest Hend') as [Hmap Hlen].
      split.
      * cbn [length]. rewrite <- cons_seq. cbn [map]. f_equal.
        { unfold chunk_at. rewrite Z.add_0_r. destruct ch as [a b].
          cbn [fst snd] in *. f_equal; lia. }
        { rewrite <- seq_shift, map_map. rewrite Hmap at 1.
          apply map_ext. intros p. f_equal. lia. }
      * cbn [length]. rewrite Nat2Z.inj_succ, Hlen.
        replace (n - q * c + c - 1) with ((n - (q + 1) * c + c - 1) + 1 * c) by lia.
        rewrite Z.div_add by lia. lia.
    + assert (Hsnd : snd ch = n) by lia.
      rewrite Hsnd in Hrest. apply contiguous_same in Hrest. subst rest.
      split.
      * cbn [length seq map]. unfold chunk_at. rewrite Z.add_0_r.
        destruct ch as [a b]. cbn [fst snd] in *. f_equal. f_equal; lia.
      * cbn [length]. change (Z.of_nat 1) with 1.
        apply (Z.div_unique _ _ 1 (n - q * c - 1)); lia.
Qed.

(** The chunks the engine launches on a non-empty dataset, enumerated. *)
Lemma engine_chunks (D : list Z) (K : Z) :
  D <> [] ->
  1 <= K <= INT_MAX ->
  Z.of_nat (length D) <= VECTOR_INT_MAX_SIZE ->
  let n := Z.of_nat (length D) in
  let c := (n + K - 1) / K in
  let T := (n + c - 1) / c in
  spawned (trace (snd (run_engine D K)))
  = map (fun p => chunk_at c n (Z.of_nat p)) (seq 0 (Z.to_nat T))
  /\ 1 <= c /\ n <= K * c /\ 1 <= T.
Proof.
  intros Hne HK Hmax n c T.
  destruct (engine_spec D K [] Hne HK Hmax) as (cs & Hrun & Hcont & Hall & _).
  fold n in Hrun, Hcont, Hall. fold c in Hall.
  assert (Hn : 1 <= n).
  { subst n. destruct D; [congruence | cbn [length]; lia]. }
  destruct (chunk_size_ceiling n K Hn ltac:(lia)) as [Hceil Hc].
  fold c in Hceil, Hc. unfold is_ceiling in Hceil.
  assert (Hend : Forall (fun ch => snd ch = Z.min (fst ch + c) n) cs).
  { eapply Forall_impl; [|exact Hall]. cbv beta.
    intros ch (i & _ & Hf & Hs). rewrite Hf. exact Hs. }
  destruct (chunks_enumerated c n cs 0 Hc ltac:(lia) ltac:(lia) Hcont Hend)
    as [Hmap Hlen].
  replace (n - 0 * c + c - 1) with (n + c - 1) in Hlen by lia. fold T in Hlen.
  assert (HT : 1 <= T).
  { subst T. apply Z.div_le_lower_bound; lia. }
  split; [|repeat split; lia].
  unfold run_engine. rewrite Hrun. cbn [snd trace app spawned].
  rewrite spawned_launch. rewrite Hmap at 1.
  replace (Z.to_nat T) with (length cs) by lia.
  apply map_ext. intros p. reflexivity.
Qed.

(** X4: on a non-empty dataset of n elements the engine launches, in this
    order, the chunks [p*c, min(p*c + c, n)) for p = 0, ..., T-1, with
    c = ceil(n/K) and T = ceil(n/c): every chunk but the last has exactly c
    elements and the last one has between 1 and c. *)
Theorem launched_chunks_enumerated (D : list Z) (K : Z) :
  D <> [] ->
  1 <= K <= INT_MAX ->
  Z.of_nat (length D) <= VECTOR_INT_MAX_SIZE ->
  let n := Z.of_nat (length D) in
  let c := (n + K - 1) / K in
  let T := (n + c - 1) / c in
  spawned (trace (snd (run_engine D K)))
  = map (fun p => chunk_at c n (Z.of_nat p)) (seq 0 (Z.to_nat T))
  /\ (forall p, 0 <= p < T - 1 -> snd (chunk_at c n p) - fst (chunk_at c n p) = c)
  /\ 1 <= snd (chunk_at c n (T - 1)) - fst (chunk_at c n (T - 1)) <= c
  /\ snd (chunk_at c n (T - 1)) = n.
Proof.
  intros Hne HK Hmax n c T.
  destruct (engine_chunks D K Hne HK Hmax) as (Hcs & Hc & HKc & HT).
  fold n c T in Hcs, Hc, HKc, HT.
  assert (Hn : 1 <= n).
  { subst n. destruct D; [congruence | cbn [length]; lia]. }
  assert (HTc : (T - 1) * c < n <= T * c).
  { pose proof (Z.div_mod (n + c - 1) c ltac:(lia)) as Hdm.
    pose proof (Z.mod_pos_bound (n + c - 1) c ltac:(lia)) as Hb.
    fold T in Hdm. nia. }
  split; [exact Hcs|]. unfold chunk_at. cbn [fst snd].
  split; [intros p Hp; nia|]. split; lia.
Qed.

Lemma launched_chunks_enumerated_witness :
  spawned (trace (snd (run_engine [2;3;4;5;6;7;8;9;10;11] 3)))
  = map (fun p => chunk_at 4 10 (Z.of_nat p)) (seq 0 3).
Proof.
  exact (proj1 (launched_chunks_enumerated [2;3;4;5;6;7;8;9;10;11] 3
                  ltac:(discriminate)
                  ltac:(split; vm_compute; discriminate)
                  ltac:(vm_compute; discriminate))).
Defined.

(** X5: on a non-empty dataset the engine launches ceil(n / ceil(n/K))
    tasks: at least one, never more than the worker count K and never more
    than the number n of elements. *)
Theorem launched_task_count (D : list Z) (K : Z) :
  D <> [] ->
  1 <= K <= INT_MAX ->
  Z.of_nat (length D) <= VECTOR_INT_MAX_SIZE ->
  let n := Z.of_nat (length D) in
  let c := (n + K - 1) / K in
  let tasks := Z.of_nat (length (spawned (trace (snd (run_engine D K))))) in
  tasks = (n + c - 1) / c /\ 1 <= tasks /\ tasks <= K /\ tasks <= n.
Proof.
  intros Hne HK Hmax n c tasks.
  destruct (engine_chunks D K Hne HK Hmax) as (Hcs & Hc & HKc & HT).
  fold n c in Hcs, Hc, HKc, HT.
  assert (Htasks : tasks = (n + c - 1) / c).
  { subst tasks. rewrite Hcs, length_map, length_seq. lia. }
  rewrite Htasks. split; [reflexivity|]. split; [exact HT|]. split.
  - apply Z.lt_succ_r. apply Z.div_lt_upper_bound; nia.
  - apply Z.lt_succ_r. apply Z.div_lt_upper_bound; nia.
Qed.

Lemma launched_task_count_witness :
  Z.of_nat (length (spawned (trace (snd (run_engine [2;3;4;5;6;7;8;9;10;11] 8))))) = 5.
Proof.
  exact (proj1 (launched_task_count [2;3;4;5;6;7;8;9;10;11] 8
                  ltac:(discriminate)
                  ltac:(split; vm_compute; discriminate)
                  ltac:(vm_compute; discriminate))).
Defined.

(** X6: when the worker count is at least the number n of elements, the
    chunk size is 1 and the engine launches exactly n tasks, the p-th one on
    the single index p. *)
Theorem oversubscribed_one_element_per_task (D : list Z) (K : Z) :
  D <> [] ->
  Z.of_nat (length D) <= K <= INT_MAX ->
  spawned (trace (snd (run_engine D K)))
  = map (fun p => (Z.of_nat p, Z.of_nat p + 1)) (seq 0 (length D)).
Proof.
  intros Hne HK.
  assert (Hn : 1 <= Z.of_nat (length D)).
  { destruct D; [congruence | cbn [length]; lia]. }
  assert (Hmax : Z.of_nat (length D) <= VECTOR_INT_MAX_SIZE).
  { unfold INT_MAX in HK. unfold VECTOR_INT_MAX_SIZE. lia. }
  destruct (engine_chunks D K Hne ltac:(lia) Hmax) as (Hcs & _).
  set (n := Z.of_nat (length D)) in *.
  assert (Hc : (n + K - 1) / K = 1).
  { symmetry. apply (Z.div_unique _ _ 1 (n - 1)); lia. }
  rewrite Hc in Hcs.
  replace ((n + 1 - 1) / 1) with n in Hcs by (rewrite Z.div_1_r; lia).
  rewrite Hcs. subst n. rewrite Nat2Z.id.
  apply map_ext_in. intros p Hp. apply in_seq in Hp.
  unfold chunk_at. f_equal; lia.
Qed.

Lemma oversubscribed_one_element_per_task_witness :
  spawned (trace (snd (run_engine [2; 3; 4] 32)))
  = map (fun p => (Z.of_nat p, Z.of_nat p + 1)) (seq 0 3).
Proof.
  apply (oversubscribed_one_element_per_task [2; 3; 4] 32);
    [discriminate | split; vm_compute; discriminate].
Defined.

(** X7: with a single worker the engine launches one task, on the whole
    index range. *)
Theorem single_worker_single_task (D : list Z) :
  D <> [] ->
  Z.of_nat (length D) <= VECTOR_INT_MAX_SIZE ->
  spawned (trace (snd (run_engine D 1))) = [(0, Z.of_nat (length D))].
Proof.
  intros Hne Hmax.
  assert (Hn : 1 <= Z.of_nat (length D)).
  { destruct D; [congruence | cbn [length]; lia]. }
  destruct (engine_chunks D 1 Hne ltac:(unfold INT_MAX; lia) Hmax) as (Hcs & _).
  set (n := Z.of_nat (length D)) in *.
  replace ((n + 1 - 1) / 1) with n in Hcs by (rewrite Z.div_1_r; lia).
  replace ((n + n - 1) / n) with 1 in Hcs
    by (apply (Z.div_unique _ _ 1 (n - 1)); lia).
  rewrite Hcs. change (Z.to_nat 1) with 1%nat. cbn [seq map].
  unfold chunk_at. f_equal. f_equal; lia.
Qed.

Lemma single_worker_single_task_witness :
  spawned (trace (snd (run_engine [2; 3; 4] 1))) = [(0, 3)].
Proof.
  apply (single_worker_single_task [2; 3; 4]);
    [discriminate | vm_compute; discriminate].
Defined.

(** ** The count *)

Lemma sequential_count_all (l : list Z) :
  sequential_count l = Z.of_nat (length l) <-> Forall (fun x => is_even x = true) l.
Proof.
  induction l as [|x l IH]; [split; [constructor | reflexivity]|].
  rewrite sequential_count_cons. pose proof (sequential_count_bounds l) as Hb.
  cbn [length]. rewrite Nat2Z.inj_succ. split.
  - intros H. destruct (is_even x) eqn:E; [|lia].
    constructor; [exact E | apply IH; lia].
  - intros H. inversion H as [|? ? Hx Hl]; subst. rewrite Hx.
    apply IH in Hl. lia.
Qed.

Lemma sequential_count_none (l : list Z) :
  sequential_count l = 0 <-> Forall (fun x => is_even x = false) l.
Proof.
  induction l as [|x l IH]; [split; [constructor | reflexivity]|].
  rewrite sequential_count_cons. pose proof (sequential_count_bounds l) as Hb.
  split.
  - intros H. destruct (is_even x) eqn:E; [lia|].
    constructor; [exact E | apply IH; lia].
  - intros H. inversion H as [|? ? Hx Hl]; subst. rewrite Hx.
    apply IH in Hl. lia.
Qed.

(** X8: the count of the engine is additive over concatenation, whatever
    worker counts the three runs use. *)
Theorem engine_count_additive (D1 D2 : list Z) (K K1 K2 : Z) :
  Z.of_nat (length (D1 ++ D2)) <= VECTOR_INT_MAX_SIZE ->
  1 <= K <= INT_MAX -> 1 <= K1 <= INT_MAX -> 1 <= K2 <= INT_MAX ->
  exists a b,
    fst (run_engine D1 K1) = inr a
    /\ fst (run_engine D2 K2) = inr b
    /\ fst (run_engine (D1 ++ D2) K) = inr (a + b).
Proof.
  intros Hmax HK HK1 HK2. rewrite length_app, Nat2Z.inj_add in Hmax.
  destruct (engine_result D1 K1 [] HK1 ltac:(lia)) as (e1 & E1 & _).
  destruct (engine_result D2 K2 [] HK2 ltac:(lia)) as (e2 & E2 & _).
  destruct (engine_result (D1 ++ D2) K [] HK
              ltac:(rewrite length_app, Nat2Z.inj_add; lia)) as (e & E & _).
  exists (sequential_count D1), (sequential_count D2).
  unfold run_engine. rewrite E1, E2, E, sequential_count_app. repeat split.
Qed.

Lemma engine_count_additive_witness :
  exists a b,
    fst (run_engine [2; 3; 4] 2) = inr a
    /\ fst (run_engine [5; 6] 7) = inr b
    /\ fst (run_engine ([2; 3; 4] ++ [5; 6]) 3) = inr (a + b).
Proof.
  apply (engine_count_additive [2; 3; 4] [5; 6] 3 2 7);
    first [split; vm_compute; discriminate | vm_compute; discriminate].
Defined.

(** X9: the count the engine returns lies between 0 and the number of
    elements; it is the number of elements exactly when every element is
    even, and 0 exactly when none is. *)
Theorem engine_count_bounds (D : list Z) (K : Z) :
  Z.of_nat (length D) <= VECTOR_INT_MAX_SIZE ->
  1 <= K <= INT_MAX ->
  exists count,
    fst (run_engine D K) = inr count
    /\ 0 <= count <= Z.of_nat (length D)
    /\ (count = Z.of_nat (length D) <-> Forall (fun x => is_even x = true) D)
    /\ (count = 0 <-> Forall (fun x => is_even x = false) D).
Proof.
  intros Hmax HK. destruct (engine_result D K [] HK Hmax) as (evs & E & _).
  exists (sequential_count D). unfold run_engine. rewrite E.
  split; [reflexivity|]. split; [apply sequential_count_bounds|].
  split; [apply sequential_count_all | apply sequential_count_none].
Qed.

Lemma engine_count_bounds_witness :
  exists count,
    fst (run_engine [2; 4; 6] 2) = inr count
    /\ 0 <= count <= Z.of_nat (length [2; 4; 6])
    /\ (count = Z.of_nat (length [2; 4; 6])
        <-> Forall (fun x => is_even x = true) [2; 4; 6])
    /\ (count = 0 <-> Forall (fun x => is_even x = false) [2; 4; 6]).
Proof.
  apply (engine_count_bounds [2; 4; 6] 2);
    first [split; vm_compute; discriminate | vm_compute; discriminate].
Defined.

(** ** The join *)

Lemma sum_permutation (l l' : list Z) : Permutation l l' -> sum l = sum l'.
Proof.
  unfold sum. induction 1; cbn [fold_right]; lia.
Qed.

(** X10: the total the join computes does not depend on the order of the
    futures: for partial counts that are not negative and whose sum fits a
    [long long], every rearrangement of the futures joins to the same
    total, the start value plus their sum. *)
Theorem join_order_irrelevant (futures futures' : list Z) (total_count : Z) (m : machine) :
  Permutation futures futures' ->
  Forall (fun f => 0 <= f) futures ->
  0 <= total_count ->
  total_count + sum futures <= LLONG_MAX ->
  join futures total_count m = (inr (total_count + sum futures), m)
  /\ join futures' total_count m = join futures total_count m.
Proof.
  intros Hperm Hpos Ht Hov.
  assert (Hpos' : Forall (fun f => 0 <= f) futures').
  { eapply Permutation_Forall; eassumption. }
  pose proof (sum_permutation _ _ Hperm) as Hsum.
  rewrite (join_spec futures) by assumption.
  rewrite (join_spec futures') by (try assumption; lia).
  rewrite Hsum. split; reflexivity.
Qed.

Lemma join_order_irrelevant_witness :
  join [2; 2; 1] 0 {| vec := []; trace := [] |} = (inr (0 + sum [2; 2; 1]), {| vec := []; trace := [] |})
  /\ join [1; 2; 2] 0 {| vec := []; trace := [] |} = join [2; 2; 1] 0 {| vec := []; trace := [] |}.
Proof.
  apply (join_order_irrelevant [2; 2; 1] [1; 2; 2] 0 {| vec := []; trace := [] |}).
  - apply Permutation_sym. apply (Permutation_cons_append [2; 2] 1).
  - repeat constructor; lia.
  - lia.
  - vm_compute. discriminate.
Defined.

(** ** The selection and the sweep *)

Lemma select_fold_pair (l : list (Z * float)) :
  forall b0,
    let b := fold_left (fun b r => update_best b (fst r) (snd r)) l b0 in
    b = b0 \/ exists r, In r l /\ b = (snd r, fst r).
Proof.
  induction l as [|r l IH]; intros b0; cbn [fold_left]; [left; reflexivity|].
  destruct (IH (update_best b0 (fst r) (snd r))) as [E | (r' & Hin & E)];
    cbv zeta in E.
  - rewrite E. unfold update_best. destruct (PrimFloat.ltb (snd r) (fst b0)).
    + right. exists r. split; [left; reflexivity | reflexivity].
    + left. reflexivity.
  - right. exists r'. split; [right; exact Hin | exact E].
Qed.

(** X11: the reported best time and best K always come from one and the
    same record: the selection is the pair (time, K) of one of the records,
    or still the initial pair (DBL_MAX, -1) when no record was below
    DBL_MAX; the selection over no record at all is the initial pair. *)
Theorem selection_from_one_record (records : list (Z * float)) :
  (select_best records = initial_best
   \/ exists r, In r records /\ select_best records = (snd r, fst r))
  /\ (records = [] -> select_best records = (DBL_MAX, -1)).
Proof.
  split; [apply select_fold_pair | intros ->; reflexivity].
Qed.





(** ** The shape of the candidate list *)

Lemma pushed_length (H : Z) : (length (pushed H) <= 7)%nat.
Proof.
  unfold pushed. destruct (1 <? H); destruct (2 <? H); cbn [app length]; lia.
Qed.

(** X13: whatever the hardware concurrency, the candidate list contains 1,
    32 and the hardware concurrency itself (as an [int]), and it has at
    least 2 and at most 7 entries. *)
Theorem candidate_list_shape (H : Z) (m : machine) :
  0 <= H <= UINT_MAX ->
  exists ks,
    derive_k_values H m
    = (inr ks, {| vec := vec m;
                  trace := trace m ++ (if 1 <? H then [EvDivide H 2; EvDivide H 2] else []) |})
    /\ In 1 ks /\ In 32 ks /\ In (convert Int H) ks
    /\ (2 <= length ks <= 7)%nat.
Proof.
  intros _. exists (unique (sort (pushed H))).
  split; [apply derive_k_values_run|].
  assert (H1 : In 1 (unique (sort (pushed H)))).
  { rewrite unique_In, sort_In. unfold pushed.
    apply in_or_app. left. left. reflexivity. }
  assert (H32 : In 32 (unique (sort (pushed H)))).
  { rewrite unique_In, sort_In. unfold pushed.
    do 4 (apply in_or_app; right). left. reflexivity. }
  assert (HH : In (convert Int H) (unique (sort (pushed H)))).
  { rewrite unique_In, sort_In. unfold pushed.
    do 2 (apply in_or_app; right). apply in_or_app. left. left. reflexivity. }
  assert (Hnd : NoDup (unique (sort (pushed H)))).
  { apply strictly_ascending_NoDup, unique_strictly_ascending, sort_ascending. }
  split; [exact H1|]. split; [exact H32|]. split; [exact HH|]. split.
  - assert (Hnd2 : NoDup [1; 32]).
    { constructor; [intros [E | []]; discriminate E|].
      constructor; [intros [] | constructor]. }
    apply (NoDup_incl_length Hnd2).
    intros k [<- | [<- | []]]; assumption.
  - etransitivity; [|apply (pushed_length H)].
    apply (NoDup_incl_length Hnd).
    intros k Hk. rewrite unique_In, sort_In in Hk. exact Hk.
Qed.

Lemma candidate_list_shape_witness :
  exists ks,
    derive_k_values 8 {| vec := []; trace := [] |}
    = (inr ks, {| vec := []; trace := [] ++ [EvDivide 8 2; EvDivide 8 2] |})
    /\ In 1 ks /\ In 32 ks /\ In (convert Int 8) ks
    /\ (2 <= length ks <= 7)%nat.
Proof.
  apply (candidate_list_shape 8 {| vec := []; trace := [] |}).
  split; vm_compute; discriminate.
Defined.



(** ** The dataset generator *)

Lemma vector_store_middle (done rest : list Z) (old x : Z) :
  vector_store (done ++ old :: rest) (Z.of_nat (length done)) x
  = Some (done ++ x :: rest).
Proof.
  unfold vector_store. rewrite length_app. cbn [length].
  replace (0 <=? Z.of_nat (length done)) with true by (symmetry; apply Z.leb_le; lia).
  replace (Z.of_nat (length done) <? Z.of_nat (length done + S (length rest)))
    with true by (symmetry; apply Z.ltb_lt; lia).
  cbn [andb]. rewrite Nat2Z.id. f_equal.
  induction done as [|d done IH]; [reflexivity|].
  cbn [length app firstn skipn]. f_equal. exact IH.
Qed.

Lemma fill_loop_spec {G : Type} (distrib : G -> Z * G) (n : nat) :
  forall (done rest : list Z) (gen : G),
    length rest = n ->
    Z.of_nat (length done + n) <= VECTOR_INT_MAX_SIZE ->
    fill_loop distrib n (Z.of_nat (length done)) (done ++ rest) gen
    = Some (done ++ fst (draws distrib n gen), snd (draws distrib n gen)).
Proof.
  induction n as [|n IH]; intros done rest gen Hlen Hmax.
  - destruct rest; [|discriminate]. cbn. reflexivity.
  - destruct rest as [|old rest]; [discriminate|]. cbn [length] in Hlen.
    cbn [fill_loop draws]. destruct (distrib gen) as [x gen'].
    rewrite vector_store_middle.
    assert (Hi : size_add (Z.of_nat (length done)) 1 = Z.of_nat (length (done ++ [x]))).
    { unfold size_add. rewrite convert_SizeT_small.
      - rewrite length_app. cbn [length]. lia.
      - unfold VECTOR_INT_MAX_SIZE in Hmax. unfold SIZE_MAX. lia. }
    rewrite Hi.
    replace (done ++ x :: rest) with ((done ++ [x]) ++ rest)
      by (rewrite <- app_assoc; reflexivity).
    rewrite IH.
    + destruct (draws distrib n gen') as [xs gen'']. cbn [fst snd].
      rewrite <- app_assoc. reflexivity.
    + lia.
    + rewrite length_app. cbn [length]. lia.
Qed.

Lemma draws_length {G : Type} (distrib : G -> Z * G) (n : nat) :
  forall gen, length (fst (draws distrib n gen)) = n.
Proof.
  induction n as [|n IH]; intros gen; [reflexivity|].
  cbn [draws]. destruct (distrib gen) as [x gen']. specialize (IH gen').
  destruct (draws distrib n gen') as [xs gen'']. cbn [fst length] in *. lia.
Qed.

Lemma draws_range {G : Type} (distrib : G -> Z * G) (lo hi : Z) (n : nat) :
  (forall g, lo <= fst (distrib g) <= hi) ->
  forall gen, Forall (fun x => lo <= x <= hi) (fst (draws distrib n gen)).
Proof.
  intros Hd. induction n as [|n IH]; intros gen; [constructor|].
  cbn [draws]. pose proof (Hd gen) as Hx.
  destruct (distrib gen) as [x gen']. specialize (IH gen').
  destruct (draws distrib n gen') as [xs gen'']. cbn [fst] in *.
  constructor; assumption.
Qed.

(** X15: the generator returns a vector of exactly the requested size whose
    elements are the successive draws of the distribution, in order: every
    initial zero is overwritten and every element lies in [1, 10000]. *)
Theorem generate_random_vector_spec {G : Type} (distrib : G -> Z * G) (size : Z) (gen : G) :
  (forall g, 1 <= fst (distrib g) <= 10000) ->
  0 <= size <= VECTOR_INT_MAX_SIZE ->
  exists v gen',
    generate_random_vector distrib size gen = Some (v, gen')
    /\ (v, gen') = draws distrib (Z.to_nat size) gen
    /\ Z.of_nat (length v) = size
    /\ Forall (fun x => 1 <= x <= 10000) v.
Proof.
  intros Hd Hsize.
  exists (fst (draws distrib (Z.to_nat size) gen)),
         (snd (draws distrib (Z.to_nat size) gen)).
  split; [|split; [|split]].
  - unfold generate_random_vector.
    apply (fill_loop_spec distrib (Z.to_nat size) [] (repeat 0 (Z.to_nat size)) gen).
    + apply repeat_length.
    + cbn [length]. lia.
  - destruct (draws distrib (Z.to_nat size) gen). reflexivity.
  - rewrite draws_length. lia.
  - apply draws_range. exact Hd.
Qed.

Lemma generate_random_vector_spec_witness :
  exists v gen',
    generate_random_vector (fun g => (1 + g mod 10000, 7 * g + 3)) 4 5 = Some (v, gen')
    /\ (v, gen') = draws (fun g => (1 + g mod 10000, 7 * g + 3)) (Z.to_nat 4) 5
    /\ Z.of_nat (length v) = 4
    /\ Forall (fun x => 1 <= x <= 10000) v.
Proof.
  apply (generate_random_vector_spec (fun g => (1 + g mod 10000, 7 * g + 3)) 4 5).
  - intros g. cbn [fst]. pose proof (Z.mod_pos_bound g 10000 ltac:(lia)). lia.
  - split; vm_compute; discriminate.
Defined.

(** ** A worker count that divides the size *)

(** X16: when the worker count K divides the number n of elements, the
    engine launches exactly K tasks of n/K elements each, the p-th one on
    [p*(n/K), (p+1)*(n/K)). *)
Theorem even_split_when_divisible (D : list Z) (K d : Z) :
  1 <= K <= INT_MAX ->
  1 <= d ->
  Z.of_nat (length D) = K * d ->
  Z.of_nat (length D) <= VECTOR_INT_MAX_SIZE ->
  spawned (trace (snd (run_engine D K)))
  = map (fun p => (Z.of_nat p * d, (Z.of_nat p + 1) * d)) (seq 0 (Z.to_nat K)).
Proof.
  intros HK Hd Hn Hmax.
  assert (Hne : D <> []).
  { intros ->. cbn [length] in Hn. nia. }
  destruct (engine_chunks D K Hne HK Hmax) as (Hcs & _).
  rewrite Hn in Hcs.
  assert (Hc : (K * d + K - 1) / K = d).
  { symmetry. apply (Z.div_unique _ _ d (K - 1)); lia. }
  rewrite Hc in Hcs.
  assert (HT : (K * d + d - 1) / d = K).
  { symmetry. apply (Z.div_unique _ _ K (d - 1)); lia. }
  rewrite HT in Hcs. rewrite Hcs.
  apply map_ext_in. intros p Hp. apply in_seq in Hp.
  unfold chunk_at. f_equal. nia.
Qed.

Lemma even_split_when_divisible_witness :
  spawned (trace (snd (run_engine [2; 3; 4; 5; 6; 7] 3)))
  = map (fun p => (Z.of_nat p * 2, (Z.of_nat p + 1) * 2)) (seq 0 (Z.to_nat 3)).
Proof.
  apply (even_split_when_divisible [2; 3; 4; 5; 6; 7] 3 2);
    first [lia | reflexivity | split; vm_compute; discriminate
           | vm_compute; discriminate].
Defined.
